(** * PostgreSQL quorum-commit topology discovery

    A shallow embedding of [storages::postgres::detail::QuorumCommitTopology]
    (the translation unit stored as [secdist_redis.hpp]): the tokenizer and
    parser of [synchronous_standby_names], the per-host probe [RunCheck] and
    the discovery cycle [RunDiscovery], followed by the properties checked
    against them. *)

From Stdlib Require Import Ascii String.
From stdpp Require Import base list gmap strings sorting.

Local Open Scope list_scope.

(** ** Strings *)

(** [std::string] and [std::string_view] are sequences of [char]. *)
Abbreviation string_view := (list ascii).

(** A literal, as a sequence of its characters. *)
Definition sv (s : string) : string_view := list_ascii_of_string s.

Module StringView.

(** [sv.find_first_not_of(set)]: position of the first character that is not
    in [set]; [None] is [npos]. *)
Fixpoint find_first_not_of (set s : string_view) : option nat :=
  match s with
  | [] => None
  | c :: s' =>
      if bool_decide (c ∈ set) then S <$> find_first_not_of set s'
      else Some 0
  end.

(** [sv.find_first_of(set)]: position of the first character in [set]. *)
Fixpoint find_first_of (set s : string_view) : option nat :=
  match s with
  | [] => None
  | c :: s' =>
      if bool_decide (c ∈ set) then Some 0
      else S <$> find_first_of set s'
  end.

(** [sv.find(ch)]. *)
Definition find (ch : ascii) (s : string_view) : option nat :=
  find_first_of [ch] s.

(** [sv.remove_prefix(n)] and [sv.substr(0, n)]. *)
Definition remove_prefix (n : nat) (s : string_view) : string_view := drop n s.
Definition substr0 (n : nat) (s : string_view) : string_view := take n s.

End StringView.

(** Modelled from the spec: [utils::StrIcaseEqual] (utils/str_icase.hpp) is
    not part of the sources at hand; section 4.1 describes it as
    case-insensitive equality.  Letters are folded over ASCII. *)
Definition ascii_tolower (c : ascii) : ascii :=
  let n := nat_of_ascii c in
  if (65 <=? n) && (n <=? 90) then ascii_of_nat (n + 32) else c.

Definition StrIcaseEqual (l r : string_view) : bool :=
  bool_decide (ascii_tolower <$> l = ascii_tolower <$> r).

(** ** The tokenizer and the parser *)

(** [kSep]: space, comma, both parentheses and the double quote. *)
Definition kSep : string_view := [" "; ","; "("; ")"; "034"]%char.

(** [ConsumeToken(sv)] returns the token and the advanced view.  When the view
    holds separators only, the token is empty and the view is left as it is. *)
Definition ConsumeToken (sv0 : string_view) : string_view * string_view :=
  match StringView.find_first_not_of kSep sv0 with
  | None => ([], sv0)
  | Some sep_end =>
      let sv1 := StringView.remove_prefix sep_end sv0 in
      match StringView.find_first_of kSep sv1 with
      | None => (sv1, [])
      | Some tok_end =>
          (StringView.substr0 tok_end sv1, StringView.remove_prefix tok_end sv1)
      end
  end.

(** [size_t] is a 64-bit unsigned integer; arithmetic wraps around. *)
Definition size_t_wrap (n : N) : N := (n mod 2 ^ 64)%N.

(** [ParseSize(token)]: the leading decimal digits, accumulated in [size_t];
    the loop breaks at the first character outside ['0'..'9']. *)
Fixpoint ParseSize_from (result : N) (token : string_view) : N :=
  match token with
  | [] => result
  | c :: rest =>
      let n := nat_of_ascii c in
      if (n <? 48) || (57 <? n) then result
      else
        let result := size_t_wrap (result * 10) in
        let result := size_t_wrap (result + N.of_nat (n - 48)) in
        ParseSize_from result rest
  end.

Definition ParseSize (token : string_view) : N := ParseSize_from 0 token.

Definition kQuorumKeyword : string_view := sv "ANY".
Definition kMultiKeyword : string_view := sv "FIRST".

(** The loop [while (num_sync--) { names.emplace_back(token);
    token = ConsumeToken(value); }], with a result that grows without limit;
    [collect_names_vec] below is the same loop on a vector of limited
    capacity. *)
Fixpoint collect_names (num_sync : nat) (token value : string_view)
  : list string_view :=
  match num_sync with
  | O => []
  | S n =>
      let '(token', value') := ConsumeToken value in
      token :: collect_names n token' value'
  end.

Definition ParseSyncStandbyNames (value : string_view) : list string_view :=
  let '(token, value) := ConsumeToken value in
  let '(num_sync, token, value) :=
    if StrIcaseEqual token kQuorumKeyword then (0%N, token, value)
    else if negb (bool_decide (token = [])) then
      let '(token, value) :=
        if StrIcaseEqual token kMultiKeyword then ConsumeToken value
        else (token, value) in
      if bool_decide (is_Some (StringView.find "(" value)) then
        let num_sync := ParseSize token in
        let '(token, value) := ConsumeToken value in
        (num_sync, token, value)
      else (1%N, token, value)
    else (0%N, token, value) in
  collect_names (N.to_nat num_sync) token value.

(** ** Host states *)

(** Modelled from the spec: [ClusterHostType], [DsnIndex], [DsnIndices] and
    [DsnIndicesByType] are declared in quorum_commit.hpp, which is not part of
    the sources at hand; section 3 gives the four roles and describes the
    published mapping as role to sequence of indices. *)
Inductive ClusterHostType := kNone | kMaster | kSyncSlave | kSlave.

Global Instance ClusterHostType_eq_dec : EqDecision ClusterHostType.
Proof. solve_decision. Defined.

Definition ClusterHostType_code (t : ClusterHostType) : nat :=
  match t with kNone => 0 | kMaster => 1 | kSyncSlave => 2 | kSlave => 3 end.

Definition ClusterHostType_of_code (n : nat) : option ClusterHostType :=
  match n with
  | 0 => Some kNone | 1 => Some kMaster | 2 => Some kSyncSlave
  | 3 => Some kSlave | _ => None
  end.

Global Instance ClusterHostType_countable : Countable ClusterHostType.
Proof.
  apply (inj_countable ClusterHostType_code ClusterHostType_of_code).
  by intros [].
Defined.

Abbreviation DsnIndex := nat.
Abbreviation DsnIndices := (list DsnIndex).
Abbreviation DsnIndicesByType := (gmap ClusterHostType (list DsnIndex)).

(** [Rtt] counts microseconds. *)
Abbreviation Rtt := Z.
Definition kUnknownRtt : Rtt := (-1)%Z.
Definition kCheckTimeout : Rtt := 1000000%Z.
Definition kConnectionId : N := 4100200300%N.
Definition kShowSyncStandbyNames : string_view :=
  sv "SHOW synchronous_standby_names".

(** The probe connection, identified by the ID it was opened with. *)
Record Connection := { connection_id : N }.

Record HostState := {
  connection : option Connection;
  host_port : string_view;
  app_name : string_view;
  role : ClusterHostType;
  roundtrip_time : Rtt;
  detected_sync_slaves : list string_view
}.

Definition set_connection (c : option Connection) (s : HostState) : HostState :=
  {| connection := c; host_port := host_port s; app_name := app_name s;
     role := role s; roundtrip_time := roundtrip_time s;
     detected_sync_slaves := detected_sync_slaves s |}.

Definition set_role (r : ClusterHostType) (s : HostState) : HostState :=
  {| connection := connection s; host_port := host_port s;
     app_name := app_name s; role := r; roundtrip_time := roundtrip_time s;
     detected_sync_slaves := detected_sync_slaves s |}.

Definition set_roundtrip_time (t : Rtt) (s : HostState) : HostState :=
  {| connection := connection s; host_port := host_port s;
     app_name := app_name s; role := role s; roundtrip_time := t;
     detected_sync_slaves := detected_sync_slaves s |}.

Definition set_detected_sync_slaves (l : list string_view) (s : HostState)
  : HostState :=
  {| connection := connection s; host_port := host_port s;
     app_name := app_name s; role := role s;
     roundtrip_time := roundtrip_time s; detected_sync_slaves := l |}.

(** ** The probe *)

(** What a call into the connection layer does: it returns, or it throws a
    [ConnectionError], or it throws anything else. *)
Inductive Thrown := ConnectionError | OtherException.

Inductive Outcome (A : Type) :=
| Returns (a : A)
| Throws (e : Thrown).
Arguments Returns {A} a.
Arguments Throws {A} e.

Global Instance Thrown_eq_dec : EqDecision Thrown.
Proof. solve_decision. Defined.

(** The answers of one host during one cycle: of [Connection::Connect], of
    [CheckReadOnly], the time measured around [CheckReadOnly], and of
    [Execute(kShowSyncStandbyNames)] read with [AsSingleRow]. *)
Record HostEnv := {
  env_connect : Outcome Connection;
  env_check_read_only : Outcome bool;
  env_elapsed : Rtt;
  env_show_sync_standby_names : Outcome string_view
}.

(** Modelled from the spec: [testsuite::PostgresControl::MakeExecuteDeadline]
    is not part of the sources at hand; a deadline is the duration it was made
    from. *)
Record Deadline := { deadline_timeout : Rtt }.
Definition MakeExecuteDeadline (timeout : Rtt) : Deadline :=
  {| deadline_timeout := timeout |}.

(** The calls [RunCheck] makes, in order.  Section 6 of the specification gives
    [Connect] and [Execute] a deadline parameter; a call records the deadline
    it was given, [None] when the source passes none. *)
Inductive Event :=
| EvConnect (dsn : DsnIndex) (conn_id : N) (deadline : option Deadline)
| EvMakeExecuteDeadline (timeout : Rtt)
| EvCheckReadOnly (deadline : option Deadline)
| EvExecute (statement : string_view) (deadline : option Deadline).

Definition event_deadline (e : Event) : option Deadline :=
  match e with
  | EvConnect _ _ d | EvCheckReadOnly d | EvExecute _ d => d
  | EvMakeExecuteDeadline _ => None
  end.

(** What [RunCheck] leaves behind: the host state, the exception that escapes
    it (if any), whether [role_check_guard.Release()] was reached, and the
    calls made. *)
Record CheckResult := {
  res_state : HostState;
  res_thrown : option Thrown;
  res_released : bool;
  res_events : list Event
}.

(** The body of [role_check_guard]. *)
Definition role_check_guard (state : HostState) : HostState :=
  set_detected_sync_slaves []
    (set_roundtrip_time kUnknownRtt
       (set_role kNone (set_connection None state))).

(** [catch (const ConnectionError&)]: that exception is swallowed, any other
    one goes on. *)
Definition catch_ConnectionError (e : Thrown) : option Thrown :=
  match e with ConnectionError => None | OtherException => Some e end.

(** Leaving [RunCheck] with the guard armed: on return or while unwinding, the
    guard's body runs. *)
Definition leave_armed (state : HostState) (e : Thrown) (evs : list Event)
  : CheckResult :=
  {| res_state := role_check_guard state;
     res_thrown := catch_ConnectionError e;
     res_released := false; res_events := evs |}.

Definition leave_released (state : HostState) (evs : list Event) : CheckResult :=
  {| res_state := state; res_thrown := None;
     res_released := true; res_events := evs |}.

(** The part of [RunCheck] after the connection is there. *)
Definition RunCheck_connected (state : HostState) (env : HostEnv)
    (evs : list Event) : CheckResult :=
  let deadline := MakeExecuteDeadline kCheckTimeout in
  let evs := evs ++ [EvMakeExecuteDeadline kCheckTimeout;
                     EvCheckReadOnly (Some deadline)] in
  match env_check_read_only env with
  | Throws e => leave_armed state e evs
  | Returns ro =>
      let state := set_role (if ro then kSlave else kMaster) state in
      let state := set_roundtrip_time (env_elapsed env) state in
      if bool_decide (role state = kMaster) then
        let evs := evs ++ [EvExecute kShowSyncStandbyNames None] in
        match env_show_sync_standby_names env with
        | Throws e => leave_armed state e evs
        | Returns res =>
            let state :=
              set_detected_sync_slaves (ParseSyncStandbyNames res) state in
            leave_released state evs
        end
      else leave_released state evs
  end.

Definition RunCheck (idx : DsnIndex) (state : HostState) (env : HostEnv)
  : CheckResult :=
  match connection state with
  | None =>
      let evs := [EvConnect idx kConnectionId None] in
      match env_connect env with
      | Throws e => leave_armed state e evs
      | Returns c => RunCheck_connected (set_connection (Some c) state) env evs
      end
  | Some _ => RunCheck_connected state env []
  end.

(** ** The discovery cycle *)

(** [std::sort(first, last, comp)].  The theorems on the cycle know the
    library routine by its contract only (see [StdSortContract] below); the
    routine of GNU libstdc++ itself is [Libstdcxx.sort]. *)
Class StdSort := std_sort : ∀ A : Type, (A → A → bool) → list A → list A.
Arguments std_sort {_ _} comp l.

(** Two sorting routines that meet the contract, neither of them the
    library's: insertion from the back of the range, which keeps equivalent
    elements in their order, and insertion from the front of the range, which
    reverses them. *)
Fixpoint insert_sorted {A} (comp : A → A → bool) (x : A) (l : list A) : list A :=
  match l with
  | [] => [x]
  | y :: l' => if comp y x then y :: insert_sorted comp x l' else x :: l
  end.

Definition insertion_sort {A} (comp : A → A → bool) (l : list A) : list A :=
  foldr (insert_sorted comp) [] l.

Definition front_insertion_sort {A} (comp : A → A → bool) (l : list A)
  : list A :=
  foldl (λ acc x, insert_sorted comp x acc) [] l.

Definition StableStdSort : StdSort := @insertion_sort.
Definition UnstableStdSort : StdSort := @front_insertion_sort.

Record Impl := {
  host_states_ : list HostState;
  dsn_indices_by_type_ : DsnIndicesByType;
  alive_dsn_indices_ : DsnIndices
}.

(** How a cycle ends: the views are assigned, or [tasks[i].Get()] rethrows what
    escaped [RunCheck(i)] and nothing is assigned. *)
Inductive CycleOutcome :=
| Published (impl : Impl)
| Rethrown (i : DsnIndex) (e : Thrown).

(** The tasks of one cycle: [RunCheck(i)] for every index, each on its own
    slot of [host_states_]. *)
Definition run_checks (env : DsnIndex → HostEnv) (hs : list HostState)
  : list CheckResult :=
  imap (λ i state, RunCheck i state (env i)) hs.

(** The loop that joins the tasks in index order and collects the indices
    whose role is not [kNone]. *)
Fixpoint join_tasks (i : DsnIndex) (tasks : list CheckResult)
    (alive_dsn_indices : DsnIndices) : DsnIndex * Thrown + DsnIndices :=
  match tasks with
  | [] => inr alive_dsn_indices
  | t :: tasks' =>
      match res_thrown t with
      | Some e => inl (i, e)
      | None =>
          let status := res_state t in
          let alive_dsn_indices :=
            if bool_decide (role status ≠ kNone)
            then alive_dsn_indices ++ [i] else alive_dsn_indices in
          join_tasks (S i) tasks' alive_dsn_indices
      end
  end.

(** [std::find_if] over [host_states_] for the first [kMaster]. *)
Definition find_master (hs : list HostState) : option (DsnIndex * HostState) :=
  list_find (λ s, role s = kMaster) hs.

(** The inner loop of the attribution pass, for one name of the master's
    list. *)
Definition mark_sync_slaves (ss_app_name : string_view)
    (alive_dsn_indices : DsnIndices) (hs : list HostState) : list HostState :=
  foldl (λ hs idx,
           match hs !! idx with
           | Some state =>
               if StrIcaseEqual (app_name state) ss_app_name
               then <[idx := set_role kSyncSlave state]> hs
               else hs
           | None => hs
           end) hs alive_dsn_indices.

Definition attribute_sync_slaves (alive_dsn_indices : DsnIndices)
    (hs : list HostState) : list HostState :=
  match find_master hs with
  | Some (_, master) =>
      if negb (bool_decide (detected_sync_slaves master = [])) then
        foldl (λ hs ss_app_name,
                 mark_sync_slaves ss_app_name alive_dsn_indices hs)
              hs (detected_sync_slaves master)
      else hs
  | None => hs
  end.

(** [host_states_[idx].roundtrip_time], as the comparator of the sort reads
    it. *)
Definition rtt_at (hs : list HostState) (idx : DsnIndex) : Rtt :=
  from_option roundtrip_time kUnknownRtt (hs !! idx).

Definition role_at (hs : list HostState) (idx : DsnIndex) : ClusterHostType :=
  from_option role kNone (hs !! idx).

Definition rtt_less (hs : list HostState) (lhs rhs : DsnIndex) : bool :=
  bool_decide (rtt_at hs lhs < rtt_at hs rhs)%Z.

(** [dsn_indices_by_type[t].push_back(idx)]. *)
Definition push_back_at (t : ClusterHostType) (idx : DsnIndex)
    (m : DsnIndicesByType) : DsnIndicesByType :=
  <[t := (m !!! t) ++ [idx]]> m.

Definition build_indices_by_type (hs : list HostState)
    (alive_dsn_indices : DsnIndices) : DsnIndicesByType :=
  foldl (λ m idx,
           let m := push_back_at (role_at hs idx) idx m in
           if bool_decide (role_at hs idx = kSyncSlave)
           then push_back_at kSlave idx m else m)
        ∅ alive_dsn_indices.

(** Everything after the join: attribution, sort, buckets. *)
Definition aggregate `{StdSort} (hs : list HostState)
    (alive_dsn_indices : DsnIndices) : Impl :=
  let hs := attribute_sync_slaves alive_dsn_indices hs in
  let alive_dsn_indices := std_sort (rtt_less hs) alive_dsn_indices in
  {| host_states_ := hs;
     dsn_indices_by_type_ := build_indices_by_type hs alive_dsn_indices;
     alive_dsn_indices_ := alive_dsn_indices |}.

Definition RunDiscovery `{StdSort} (impl : Impl) (env : DsnIndex → HostEnv)
  : CycleOutcome :=
  let tasks := run_checks env (host_states_ impl) in
  let hs := res_state <$> tasks in
  match join_tasks 0 tasks [] with
  | inl (i, e) => Rethrown i e
  | inr alive_dsn_indices => Published (aggregate hs alive_dsn_indices)
  end.

(** The bucket of a role in a published mapping. *)
Definition bucket (m : DsnIndicesByType) (t : ClusterHostType) : DsnIndices :=
  m !!! t.

(** ** Vocabulary of the properties *)

(** The first exception thrown by a call that [RunCheck] makes, if any: the
    failure of the probe. *)
Definition probe_failure (state : HostState) (env : HostEnv) : option Thrown :=
  match connection state, env_connect env with
  | None, Throws e => Some e
  | _, _ =>
      match env_check_read_only env with
      | Throws e => Some e
      | Returns true => None
      | Returns false =>
          match env_show_sync_standby_names env with
          | Throws e => Some e
          | Returns _ => None
          end
      end
  end.

(** A single deadline governs the probe when every call into the connection
    layer is given the deadline made from [kCheckTimeout]. *)
Definition is_io_call (e : Event) : bool :=
  match e with EvMakeExecuteDeadline _ => false | _ => true end.

Definition governed_by_check_deadline (evs : list Event) : Prop :=
  ∀ e, e ∈ evs → is_io_call e = true →
       event_deadline e = Some (MakeExecuteDeadline kCheckTimeout).

(** [alive = [ i | HostState[i].role ≠ None ]] in index order (section 4.3,
    step 3), for the slots numbered from [i]. *)
Fixpoint alive_from (i : DsnIndex) (hs : list HostState) : DsnIndices :=
  match hs with
  | [] => []
  | s :: hs' =>
      if bool_decide (role s ≠ kNone) then i :: alive_from (S i) hs'
      else alive_from (S i) hs'
  end.

(** The names the attribution pass walks: those of the first master, none
    when there is no master. *)
Definition master_sync_names (hs : list HostState) : list string_view :=
  match find_master hs with
  | Some (_, master) => detected_sync_slaves master
  | None => []
  end.

(** Whether the [app_name] of a state matches one of [names],
    case-insensitively. *)
Definition name_matches (names : list string_view) (s : HostState) : bool :=
  existsb (StrIcaseEqual (app_name s)) names.

(** The state of slot [idx] after the attribution pass over [alive] with
    [names]. *)
Definition attributed (alive : DsnIndices) (names : list string_view)
    (idx : DsnIndex) (s : HostState) : HostState :=
  if bool_decide (idx ∈ alive) && name_matches names s
  then set_role kSyncSlave s else s.

(** Membership of a bucket: the role of the index, and for [kSlave] also
    [kSyncSlave]. *)
Definition in_bucket (hs : list HostState) (t : ClusterHostType)
    (idx : DsnIndex) : Prop :=
  role_at hs idx = t ∨ (t = kSlave ∧ role_at hs idx = kSyncSlave).

Global Instance in_bucket_dec hs t idx : Decision (in_bucket hs t idx).
Proof. unfold in_bucket. apply _. Defined.

(** The host states once every probe of the cycle has run. *)
Definition probed_states (impl : Impl) (env : DsnIndex → HostEnv)
  : list HostState :=
  res_state <$> run_checks env (host_states_ impl).

(** Sorted by non-decreasing round-trip time. *)
Definition rtt_sorted (hs : list HostState) (l : DsnIndices) : Prop :=
  StronglySorted (λ a b, (rtt_at hs a ≤ rtt_at hs b)%Z) l.

(** The contract of [std::sort]: for a comparator that is a strict weak
    ordering, the result is a rearrangement of the range in which no element
    is followed by one that compares less. *)
Record StrictWeakOrder {A} (comp : A → A → bool) : Prop := {
  swo_irreflexive a : comp a a = false;
  swo_transitive a b c : comp a b = true → comp b c = true → comp a c = true;
  swo_equiv_transitive a b c :
    comp a b = false → comp b a = false →
    comp b c = false → comp c b = false →
    comp a c = false ∧ comp c a = false
}.

Class StdSortContract (S : StdSort) : Prop := {
  std_sort_permutation A (comp : A → A → bool) l :
    StrictWeakOrder comp → std_sort comp l ≡ₚ l;
  std_sort_sorted A (comp : A → A → bool) l :
    StrictWeakOrder comp →
    StronglySorted (λ a b, comp b a = false) (std_sort comp l)
}.

(** ** Hosts used in the examples *)

(** [HostState(dsn)]: a fresh slot for the host named [name]. *)
Definition HostState_new (name : string_view) : HostState :=
  {| connection := None; host_port := []; app_name := name; role := kNone;
     roundtrip_time := kUnknownRtt; detected_sync_slaves := [] |}.

(** The discoverer before its first cycle. *)
Definition Impl_new (names : list string_view) : Impl :=
  {| host_states_ := HostState_new <$> names;
     dsn_indices_by_type_ := ∅; alive_dsn_indices_ := [] |}.

Definition probe_connection : Connection := {| connection_id := kConnectionId |}.

(** A primary that answers in [rtt] microseconds and reports [standby_names]. *)
Definition env_master (rtt : Rtt) (standby_names : string_view) : HostEnv :=
  {| env_connect := Returns probe_connection;
     env_check_read_only := Returns false;
     env_elapsed := rtt;
     env_show_sync_standby_names := Returns standby_names |}.

Arguments env_master rtt%_Z standby_names.

(** A replica that answers in [rtt] microseconds. *)
Definition env_slave (rtt : Rtt) : HostEnv :=
  {| env_connect := Returns probe_connection;
     env_check_read_only := Returns true;
     env_elapsed := rtt;
     env_show_sync_standby_names := Returns [] |}.

Arguments env_slave rtt%_Z.

(** A host that refuses the connection. *)
Definition env_unreachable : HostEnv :=
  {| env_connect := Throws ConnectionError;
     env_check_read_only := Throws ConnectionError;
     env_elapsed := 0%Z;
     env_show_sync_standby_names := Throws ConnectionError |}.

(** A primary whose answer to the SHOW query makes the result layer throw
    something that is not a [ConnectionError]. *)
Definition env_master_bad_result (rtt : Rtt) : HostEnv :=
  {| env_connect := Returns probe_connection;
     env_check_read_only := Returns false;
     env_elapsed := rtt;
     env_show_sync_standby_names := Throws OtherException |}.

Arguments env_master_bad_result rtt%_Z.

(** The answers of a cluster, host by host; hosts beyond the list are
    unreachable. *)
Definition cluster (envs : list HostEnv) (i : DsnIndex) : HostEnv :=
  default env_unreachable (envs !! i).

(** Scenario S6: a primary [m] that names [r1], and the replicas [r1] and
    [r2]; the probes take 3, 5 and 2 milliseconds. *)
Definition scenario_S6_impl : Impl := Impl_new [sv "m"; sv "r1"; sv "r2"].
Definition scenario_S6_env : DsnIndex → HostEnv :=
  cluster [env_master 3000 (sv "r1"); env_slave 5000; env_slave 2000].
Definition scenario_S6_views : Impl :=
  @aggregate StableStdSort (probed_states scenario_S6_impl scenario_S6_env)
    (alive_from 0 (probed_states scenario_S6_impl scenario_S6_env)).


(** A primary whose own name heads its [synchronous_standby_names], and one
    replica. *)
Definition self_named_impl : Impl := Impl_new [sv "host_a"; sv "host_b"].
Definition self_named_env : DsnIndex → HostEnv :=
  cluster [env_master 3000 (sv "FIRST 1 (host_a, host_b)"); env_slave 5000].

(** Two primaries that name different replicas. *)
Definition two_masters : list HostState :=
  [ {| connection := Some probe_connection; host_port := [];
       app_name := sv "m1"; role := kMaster; roundtrip_time := 3000%Z;
       detected_sync_slaves := [sv "r1"] |};
    {| connection := Some probe_connection; host_port := [];
       app_name := sv "m2"; role := kMaster; roundtrip_time := 4000%Z;
       detected_sync_slaves := [sv "r2"] |};
    {| connection := Some probe_connection; host_port := [];
       app_name := sv "r1"; role := kSlave; roundtrip_time := 5000%Z;
       detected_sync_slaves := [] |};
    {| connection := Some probe_connection; host_port := [];
       app_name := sv "r2"; role := kSlave; roundtrip_time := 2000%Z;
       detected_sync_slaves := [] |} ].

(** ** The grammar of section 4.1, in its own words *)

Module Grammar.

(** Separators are space, comma, open paren, close paren and double quote. *)
Definition is_sep (c : ascii) : bool := bool_decide (c ∈ kSep).
Definition is_name_char (c : ascii) : bool := negb (is_sep c).

Fixpoint take_while (p : ascii → bool) (s : string_view) : string_view :=
  match s with
  | [] => []
  | c :: s' => if p c then c :: take_while p s' else []
  end.

Fixpoint drop_while (p : ascii → bool) (s : string_view) : string_view :=
  match s with
  | [] => []
  | c :: s' => if p c then drop_while p s' else s
  end.

(** Tokens are the maximal non-separator runs; [cur] is the run being
    read. *)
Fixpoint tokens_from (cur s : string_view) : list string_view :=
  match s with
  | [] => match cur with [] => [] | _ => [cur] end
  | c :: s' =>
      if is_sep c then
        match cur with
        | [] => tokens_from [] s'
        | _ => cur :: tokens_from [] s'
        end
      else tokens_from (cur ++ [c]) s'
  end.

Definition tokens (s : string_view) : list string_view := tokens_from [] s.

(** The text that follows the first token of [s]. *)
Definition after_token (s : string_view) : string_view :=
  drop_while is_name_char (drop_while is_sep s).

(** Whether an open paren occurs in [s]. *)
Definition has_open_paren (s : string_view) : bool :=
  bool_decide ("("%char ∈ s).

(** The decimal value of a string of digits. *)
Definition is_digit (c : ascii) : bool :=
  (48 <=? nat_of_ascii c) && (nat_of_ascii c <=? 57).

Definition decimal_step (acc : N) (c : ascii) : N :=
  (acc * 10 + N.of_nat (nat_of_ascii c - 48))%N.

Definition decimal_value (s : string_view) : N := foldl decimal_step 0%N s.

(** The first [n] entries of a name list; where the list is shorter, empty
    strings fill the places. *)
Definition first_padded (n : nat) (names : list string_view)
  : list string_view :=
  take n (names ++ replicate n []).

End Grammar.

(** ** Further vocabulary *)


Definition is_execute_event (e : Event) : bool :=
  match e with EvExecute _ _ => true | _ => false end.

(** Whether the connection layer lets [RunCheck] reach the read-only check:
    the slot holds a connection already, or [Connect] returns one. *)
Definition gets_connected (state : HostState) (env : HostEnv) : bool :=
  match connection state, env_connect env with
  | Some _, _ | None, Returns _ => true
  | None, Throws _ => false
  end.

(** A primary under quorum commit, and two replicas. *)
Definition quorum_env : DsnIndex → HostEnv :=
  cluster [env_master 3000 (sv "ANY 1 (r1, r2)"); env_slave 5000;
           env_slave 2000].

(** Replicas only. *)
Definition replicas_env : DsnIndex → HostEnv :=
  cluster [env_slave 3000; env_slave 5000; env_slave 2000].

(** A replica, then two primaries whose SHOW answer cannot be read. *)
Definition bad_results_env : DsnIndex → HostEnv :=
  cluster [env_slave 1000; env_master_bad_result 3000;
           env_master_bad_result 2000].

(** What a cycle publishes when no probe lets an exception escape. *)
Definition cycle_views `{StdSort} (impl : Impl) (env : DsnIndex → HostEnv)
  : Impl :=
  aggregate (probed_states impl env) (alive_from 0 (probed_states impl env)).

(** ** The sorting routine of GNU libstdc++ *)

(** [std::sort] as the GNU C++ library implements it (bits/stl_algo.h and
    bits/stl_heap.h): introsort down to ranges of sixteen, heapsort when the
    depth limit runs out, and a final insertion sort.  A range is an array
    [v] with positions [first] and [last]; an iterator is a position.  A
    position outside the array compares as not less, which ends the unguarded
    loops where the library relies on a sentinel. *)
Module Libstdcxx.
Section routines.
Context {A : Type} (comp : A → A → bool).

(** [__comp(i, j)], [__comp(val, j)] and [__comp(i, val)]. *)
Definition comp_iter (v : list A) (i j : nat) : bool :=
  match v !! i, v !! j with
  | Some a, Some b => comp a b
  | _, _ => false
  end.

Definition comp_val_iter (v : list A) (val : A) (j : nat) : bool :=
  match v !! j with Some b => comp val b | None => false end.

Definition comp_iter_val (v : list A) (i : nat) (val : A) : bool :=
  match v !! i with Some a => comp a val | None => false end.

(** [std::iter_swap(i, j)] and [*dst = std::move( *src )]. *)
Definition iter_swap (i j : nat) (v : list A) : list A :=
  match v !! i, v !! j with
  | Some a, Some b => <[j := a]> (<[i := b]> v)
  | _, _ => v
  end.

Definition move_to (dst src : nat) (v : list A) : list A :=
  match v !! src with Some a => <[dst := a]> v | None => v end.

Definition _S_threshold : nat := 16.

(** [__move_median_to_first(result, a, b, c, comp)]. *)
Definition move_median_to_first (result a b c : nat) (v : list A) : list A :=
  if comp_iter v a b then
    if comp_iter v b c then iter_swap result b v
    else if comp_iter v a c then iter_swap result c v
    else iter_swap result a v
  else if comp_iter v a c then iter_swap result a v
  else if comp_iter v b c then iter_swap result c v
  else iter_swap result b v.

(** [__unguarded_linear_insert(last, comp)]: the loop, with [val] taken out
    of position [last]. *)
Fixpoint unguarded_linear_insert_loop (val : A) (last : nat) (v : list A)
  : list A :=
  match last with
  | O => <[0 := val]> v
  | S next =>
      if comp_val_iter v val next
      then unguarded_linear_insert_loop val next (move_to (S next) next v)
      else <[S next := val]> v
  end.

Definition unguarded_linear_insert (last : nat) (v : list A) : list A :=
  match v !! last with
  | Some val => unguarded_linear_insert_loop val last v
  | None => v
  end.

(** One turn of the loop of [__insertion_sort(first, last, comp)]; in the
    first branch [move_backward(first, i, i + 1)] and [*first = val]. *)
Definition insertion_sort_step (first : nat) (v : list A) (i : nat) : list A :=
  if comp_iter v i first then
    match v !! i with
    | Some val =>
        take first v ++ val :: take (i - first) (drop first v) ++ drop (S i) v
    | None => v
    end
  else unguarded_linear_insert i v.

Definition insertion_sort (first last : nat) (v : list A) : list A :=
  if bool_decide (first = last) then v
  else foldl (insertion_sort_step first) v (seq (S first) (last - S first)).

Definition unguarded_insertion_sort (first last : nat) (v : list A) : list A :=
  foldl (λ v i, unguarded_linear_insert i v) v (seq first (last - first)).

Definition final_insertion_sort (first last : nat) (v : list A) : list A :=
  if _S_threshold <? last - first then
    unguarded_insertion_sort (first + _S_threshold) last
      (insertion_sort first (first + _S_threshold) v)
  else insertion_sort first last v.

(** The inner loops of [__unguarded_partition]. *)
Fixpoint skip_less (fuel first pivot : nat) (v : list A) : nat :=
  match fuel with
  | O => first
  | S fuel =>
      if comp_iter v first pivot then skip_less fuel (S first) pivot v
      else first
  end.

Fixpoint skip_greater (last pivot : nat) (v : list A) : nat :=
  match last with
  | O => O
  | S last' =>
      if comp_iter v pivot (S last') then skip_greater last' pivot v
      else S last'
  end.

(** [__unguarded_partition(first, last, pivot, comp)]: the cut and the
    array. *)
Fixpoint unguarded_partition (fuel first last pivot : nat) (v : list A)
  : nat * list A :=
  match fuel with
  | O => (first, v)
  | S fuel =>
      let first := skip_less (length v) first pivot v in
      let last := last - 1 in
      let last := skip_greater last pivot v in
      if negb (first <? last) then (first, v)
      else unguarded_partition fuel (S first) last pivot (iter_swap first last v)
  end.

Definition unguarded_partition_pivot (first last : nat) (v : list A)
  : nat * list A :=
  let mid := first + (last - first) / 2 in
  let v := move_median_to_first first (first + 1) mid (last - 1) v in
  unguarded_partition (length v) (first + 1) last first v.

(** [__push_heap(first, holeIndex, topIndex, value, comp)]. *)
Fixpoint push_heap (fuel first holeIndex topIndex : nat) (value : A)
    (v : list A) : list A :=
  match fuel with
  | O => <[first + holeIndex := value]> v
  | S fuel =>
      let parent := (holeIndex - 1) / 2 in
      if (topIndex <? holeIndex) && comp_iter_val v (first + parent) value
      then push_heap fuel first parent topIndex value
             (move_to (first + holeIndex) (first + parent) v)
      else <[first + holeIndex := value]> v
  end.

(** The first loop of [__adjust_heap]: the hole, the second child and the
    array when it ends. *)
Fixpoint adjust_heap_loop (fuel first holeIndex secondChild len : nat)
    (v : list A) : nat * nat * list A :=
  match fuel with
  | O => (holeIndex, secondChild, v)
  | S fuel =>
      if secondChild <? (len - 1) / 2 then
        let secondChild := 2 * (secondChild + 1) in
        let secondChild :=
          if comp_iter v (first + secondChild) (first + (secondChild - 1))
          then secondChild - 1 else secondChild in
        let v := move_to (first + holeIndex) (first + secondChild) v in
        adjust_heap_loop fuel first secondChild secondChild len v
      else (holeIndex, secondChild, v)
  end.

(** [__adjust_heap(first, holeIndex, len, value, comp)]. *)
Definition adjust_heap (first holeIndex len : nat) (value : A) (v : list A)
  : list A :=
  let topIndex := holeIndex in
  let '(holeIndex, secondChild, v) :=
    adjust_heap_loop (length v) first holeIndex holeIndex len v in
  let '(holeIndex, v) :=
    if Nat.even len && (secondChild =? (len - 2) / 2) then
      let secondChild := 2 * (secondChild + 1) in
      (secondChild - 1,
       move_to (first + holeIndex) (first + (secondChild - 1)) v)
    else (holeIndex, v) in
  push_heap (length v) first holeIndex topIndex value v.

(** [__pop_heap(first, last, result, comp)]. *)
Definition pop_heap (first last result : nat) (v : list A) : list A :=
  match v !! result with
  | Some value => adjust_heap first 0 (last - first) value (move_to result first v)
  | None => v
  end.

(** [__make_heap(first, last, comp)]: the loop over [parent], downwards. *)
Fixpoint make_heap_loop (first len parent : nat) (v : list A) : list A :=
  let v :=
    match v !! (first + parent) with
    | Some value => adjust_heap first parent len value v
    | None => v
    end in
  match parent with
  | O => v
  | S parent => make_heap_loop first len parent v
  end.

Definition make_heap (first last : nat) (v : list A) : list A :=
  if last - first <? 2 then v
  else make_heap_loop first (last - first) ((last - first - 2) / 2) v.

(** [__sort_heap(first, last, comp)], by the length of the heap. *)
Fixpoint sort_heap_loop (first len : nat) (v : list A) : list A :=
  match len with
  | O => v
  | S len' =>
      if 1 <? S len' then
        sort_heap_loop first len' (pop_heap first (first + len') (first + len') v)
      else v
  end.

Definition sort_heap (first last : nat) (v : list A) : list A :=
  sort_heap_loop first (last - first) v.

(** [__heap_select] and [__partial_sort]. *)
Definition heap_select (first middle last : nat) (v : list A) : list A :=
  foldl (λ v i, if comp_iter v i first then pop_heap first middle i v else v)
        (make_heap first middle v) (seq middle (last - middle)).

Definition partial_sort (first middle last : nat) (v : list A) : list A :=
  sort_heap first middle (heap_select first middle last v).

(** [__introsort_loop(first, last, depth_limit, comp)]: every turn of its
    loop, like the call inside, runs with one less of [depth_limit]. *)
Fixpoint introsort_loop (depth_limit first last : nat) (v : list A) : list A :=
  if _S_threshold <? last - first then
    match depth_limit with
    | O => partial_sort first last last v
    | S depth_limit =>
        let '(cut, v) := unguarded_partition_pivot first last v in
        let v := introsort_loop depth_limit cut last v in
        introsort_loop depth_limit first cut v
    end
  else v.

(** [__sort(first, last, comp)] over the whole array; [__lg] is the binary
    logarithm rounded down. *)
Definition sort (v : list A) : list A :=
  match v with
  | [] => v
  | _ =>
      let n := length v in
      final_insertion_sort 0 n (introsort_loop (Nat.log2 n * 2) 0 n v)
  end.

End routines.
End Libstdcxx.

Definition LibstdcxxStdSort : StdSort := @Libstdcxx.sort.

(** Seventeen replicas that answer equally fast. *)
Definition equal_rtt_impl : Impl := Impl_new (replicate 17 (sv "replica")).
Definition equal_rtt_env : DsnIndex → HostEnv :=
  cluster (replicate 17 (env_slave 1000)).

(** ** The parser with the limit of its result vector *)

(** [sync_slave_names] is a [std::vector<std::string>]: [emplace_back] throws
    once the vector cannot grow, [std::length_error] at [max_size()] and
    [std::bad_alloc] when memory runs out before.  [capacity] is the number
    of entries the vector can hold in a run; neither exception is a
    [ConnectionError]. *)
Fixpoint collect_names_vec (capacity : N) (num_sync : nat)
    (sync_slave_names : list string_view) (token value : string_view)
  : Outcome (list string_view) :=
  match num_sync with
  | O => Returns sync_slave_names
  | S n =>
      if (N.of_nat (length sync_slave_names) <? capacity)%N then
        let '(token', value') := ConsumeToken value in
        collect_names_vec capacity n (sync_slave_names ++ [token]) token' value'
      else Throws OtherException
  end.

Definition ParseSyncStandbyNames_vec (capacity : N) (value : string_view)
  : Outcome (list string_view) :=
  let '(token, value) := ConsumeToken value in
  let '(num_sync, token, value) :=
    if StrIcaseEqual token kQuorumKeyword then (0%N, token, value)
    else if negb (bool_decide (token = [])) then
      let '(token, value) :=
        if StrIcaseEqual token kMultiKeyword then ConsumeToken value
        else (token, value) in
      if bool_decide (is_Some (StringView.find "(" value)) then
        let num_sync := ParseSize token in
        let '(token, value) := ConsumeToken value in
        (num_sync, token, value)
      else (1%N, token, value)
    else (0%N, token, value) in
  collect_names_vec capacity (N.to_nat num_sync) [] token value.

(** [std::vector<std::string>::max_size()] of GNU libstdc++ on a 64-bit
    target: the largest [ptrdiff_t] over the 32 bytes of a [std::string].  No
    run has a larger capacity. *)
Definition kVectorMaxSize : N := ((2 ^ 63 - 1) / 32)%N.

(** Scenarios S1 to S5 of the specification. *)
Example parse_S1 :
  ParseSyncStandbyNames (sv "ANY 2 (host_a, host_b, host_c)") = [].
Proof. reflexivity. Qed.

Example parse_S2 :
  ParseSyncStandbyNames (sv "FIRST 2 (host_a, host_b, host_c)")
  = [sv "host_a"; sv "host_b"].
Proof. reflexivity. Qed.

Example parse_S3 :
  ParseSyncStandbyNames (sv "2 (host_a, host_b, host_c)")
  = [sv "host_a"; sv "host_b"].
Proof. reflexivity. Qed.

Example parse_S4 : ParseSyncStandbyNames (sv "host_solo") = [sv "host_solo"].
Proof. reflexivity. Qed.

Example parse_S5 : ParseSyncStandbyNames (sv "") = [].
Proof. reflexivity. Qed.

(** ** The tokenizer *)

Section tokenizer.
Import Grammar.

Lemma take_drop_while p s : take_while p s ++ drop_while p s = s.
Proof. induction s as [|c s IH]; simpl; [done|]. destruct (p c); simpl; by f_equal. Qed.

Lemma drop_length_take_while p s :
  drop (length (take_while p s)) s = drop_while p s.
Proof. induction s as [|c s IH]; simpl; [done|]. by destruct (p c). Qed.

Lemma take_length_take_while p s :
  take (length (take_while p s)) s = take_while p s.
Proof. induction s as [|c s IH]; simpl; [done|]. destruct (p c); simpl; by f_equal. Qed.

Lemma drop_while_nil_take_while p s : drop_while p s = [] → take_while p s = s.
Proof.
  intros H. rewrite <-(take_drop_while p s) at 2. by rewrite H, app_nil_r.
Qed.

Lemma find_first_not_of_kSep s :
  StringView.find_first_not_of kSep s =
    match drop_while is_sep s with
    | [] => None
    | _ => Some (length (take_while is_sep s))
    end.
Proof.
  induction s as [|c s IH]; simpl; [done|].
  unfold is_sep at 1 3. destruct (bool_decide (c ∈ kSep)); [|done].
  rewrite IH. by destruct (drop_while is_sep s).
Qed.

Lemma find_first_of_kSep s :
  StringView.find_first_of kSep s =
    match drop_while is_name_char s with
    | [] => None
    | _ => Some (length (take_while is_name_char s))
    end.
Proof.
  induction s as [|c s IH]; simpl; [done|].
  unfold is_name_char at 1 3, is_sep. destruct (bool_decide (c ∈ kSep)); simpl; [done|].
  rewrite IH. by destruct (drop_while is_name_char s).
Qed.

(** [ConsumeToken] skips the separators, then splits at the next one. *)
Lemma ConsumeToken_unfold s :
  ConsumeToken s =
    match drop_while is_sep s with
    | [] => ([], s)
    | s1 => (take_while is_name_char s1, drop_while is_name_char s1)
    end.
Proof.
  unfold ConsumeToken. rewrite find_first_not_of_kSep.
  unfold StringView.remove_prefix, StringView.substr0.
  destruct (drop_while is_sep s) as [|c s1] eqn:Hs; [done|].
  rewrite drop_length_take_while, Hs, find_first_of_kSep.
  destruct (drop_while is_name_char (c :: s1)) eqn:Ht.
  - by rewrite (drop_while_nil_take_while _ _ Ht).
  - by rewrite take_length_take_while, drop_length_take_while, Ht.
Qed.

End tokenizer.

Section tokens.
Import Grammar.

Lemma drop_while_sep_head s :
  match drop_while is_sep s with
  | [] => True
  | c :: _ => is_name_char c = true
  end.
Proof.
  induction s as [|c s IH]; simpl; [done|].
  destruct (is_sep c) eqn:Hc; [done|]. unfold is_name_char. by rewrite Hc.
Qed.

Lemma drop_while_name_head s :
  match drop_while is_name_char s with
  | [] => True
  | c :: _ => is_sep c = true
  end.
Proof.
  induction s as [|c s IH]; simpl; [done|]. unfold is_name_char at 1.
  destruct (is_sep c) eqn:Hc; simpl; done.
Qed.

Lemma tokens_from_skip_seps s :
  tokens_from [] s = tokens_from [] (drop_while is_sep s).
Proof.
  induction s as [|c s IH]; simpl; [done|].
  destruct (is_sep c) eqn:Hc; [done|]. simpl. by rewrite Hc.
Qed.

Lemma tokens_from_run cur s :
  tokens_from cur s =
    tokens_from (cur ++ take_while is_name_char s) (drop_while is_name_char s).
Proof.
  revert cur. induction s as [|c s IH]; intros cur; simpl.
  - by rewrite app_nil_r.
  - unfold is_name_char at 1 3. destruct (is_sep c) eqn:Hc; simpl.
    + by rewrite app_nil_r, Hc.
    + by rewrite IH, <-app_assoc.
Qed.

Lemma tokens_from_close cur s :
  cur ≠ [] →
  tokens_from cur (drop_while is_name_char s) =
    cur :: tokens_from [] (drop_while is_name_char s).
Proof.
  intros Hcur. pose proof (drop_while_name_head s) as Hh.
  destruct (drop_while is_name_char s) as [|c r]; simpl.
  - by destruct cur.
  - rewrite Hh. by destruct cur.
Qed.

(** The first token is the first maximal run; the other tokens are those of
    the text after it. *)
Lemma tokens_unfold s :
  tokens s =
    match drop_while is_sep s with
    | [] => []
    | s1 => take_while is_name_char s1 :: tokens (drop_while is_name_char s1)
    end.
Proof.
  unfold tokens. rewrite tokens_from_skip_seps.
  pose proof (drop_while_sep_head s) as Hh.
  destruct (drop_while is_sep s) as [|c s1]; [done|].
  rewrite tokens_from_run, tokens_from_close; [done|].
  simpl. by rewrite Hh.
Qed.

Lemma tokens_head_nonempty s t ts : tokens s = t :: ts → t ≠ [].
Proof.
  rewrite tokens_unfold. pose proof (drop_while_sep_head s) as Hh.
  destruct (drop_while is_sep s) as [|c s1]; [done|].
  intros [= <- _]. simpl. by rewrite Hh.
Qed.

Lemma tokens_after_token s : tokens (after_token s) = tail (tokens s).
Proof.
  rewrite (tokens_unfold s). unfold after_token.
  by destruct (drop_while is_sep s).
Qed.

Lemma ConsumeToken_token s : (ConsumeToken s).1 = hd [] (tokens s).
Proof.
  rewrite ConsumeToken_unfold, tokens_unfold.
  by destruct (drop_while is_sep s).
Qed.

Lemma ConsumeToken_rest s :
  (ConsumeToken s).2 = match tokens s with [] => s | _ => after_token s end.
Proof.
  rewrite ConsumeToken_unfold, tokens_unfold. unfold after_token.
  by destruct (drop_while is_sep s).
Qed.

Lemma ConsumeToken_rest_tokens s : tokens (ConsumeToken s).2 = tail (tokens s).
Proof.
  rewrite ConsumeToken_rest. destruct (tokens s) eqn:Hs.
  - by rewrite Hs.
  - by rewrite tokens_after_token, Hs.
Qed.

Lemma take_app_replicate {A} (x : A) (l : list A) n m :
  n ≤ m → take n (l ++ replicate m x) = take n (l ++ replicate n x).
Proof.
  intros Hnm. rewrite !take_app, !take_replicate. f_equal. f_equal. lia.
Qed.

(** The loop of the parser yields the current token and then the tokens of
    the rest of the input; once the input is used up it yields empty
    tokens. *)
Lemma collect_names_tokens n token value :
  collect_names n token value = first_padded n (token :: tokens value).
Proof.
  unfold first_padded.
  revert token value. induction n as [|n IH]; intros token value; [done|].
  simpl. destruct (ConsumeToken value) as [t' v'] eqn:Hc.
  pose proof (ConsumeToken_token value) as Ht.
  pose proof (ConsumeToken_rest_tokens value) as Hr.
  rewrite Hc in Ht, Hr. simpl in Ht, Hr. f_equal.
  rewrite IH, Ht, Hr.
  destruct (tokens value) as [|t ts]; [done|].
  change (take n ((t :: ts) ++ replicate n []) =
          take n ((t :: ts) ++ replicate (S n) [])).
  symmetry. apply take_app_replicate. lia.
Qed.

Lemma find_is_Some ch s : is_Some (StringView.find ch s) ↔ ch ∈ s.
Proof.
  unfold StringView.find. induction s as [|c s IH]; simpl.
  - split; [by intros [? ?]|by intros ?%elem_of_nil].
  - case_bool_decide as Hc.
    + apply list_elem_of_singleton in Hc as ->.
      split; [intros _; apply elem_of_cons; by left|by eexists].
    + rewrite fmap_is_Some, IH, elem_of_cons.
      rewrite list_elem_of_singleton in Hc.
      split; [by right|]. intros [Heq|?]; [by destruct Hc|done].
Qed.

Lemma find_open_paren s :
  bool_decide (is_Some (StringView.find "(" s)) = has_open_paren s.
Proof. apply bool_decide_ext, find_is_Some. Qed.

End tokens.

(** ** The parser *)

Section parser.
Import Grammar.

Lemma ConsumeToken_cons s t ts :
  tokens s = t :: ts → ConsumeToken s = (t, after_token s).
Proof.
  intros Hs. rewrite (surjective_pairing (ConsumeToken s)).
  by rewrite ConsumeToken_token, ConsumeToken_rest, Hs.
Qed.


Lemma first_padded_hd_tail n (ts : list string_view) :
  first_padded n (hd [] ts :: tail ts) = first_padded n ts.
Proof.
  destruct ts as [|t ts]; [|done]. unfold first_padded.
  change (take n (replicate (S n) ([] : string_view)) = take n (replicate n [])).
  rewrite !take_replicate. f_equal. lia.
Qed.

Lemma first_padded_split n (names : list string_view) :
  first_padded n names = take n names ++ replicate (n - length names) [].
Proof.
  unfold first_padded. rewrite take_app, take_replicate. do 2 f_equal. lia.
Qed.

Lemma length_first_padded n (names : list string_view) :
  length (first_padded n names) = n.
Proof.
  unfold first_padded. rewrite length_take, length_app, length_replicate. lia.
Qed.

(** Reading a token and then running the loop yields the padded tokens of the
    text. *)
Lemma collect_after_ConsumeToken n value :
  collect_names n (ConsumeToken value).1 (ConsumeToken value).2
  = first_padded n (tokens value).
Proof.
  rewrite collect_names_tokens, ConsumeToken_token, ConsumeToken_rest_tokens.
  apply first_padded_hd_tail.
Qed.

Lemma StrIcaseEqual_multi_not_quorum t :
  StrIcaseEqual t kMultiKeyword = true → StrIcaseEqual t kQuorumKeyword = false.
Proof.
  unfold StrIcaseEqual. intros H%bool_decide_eq_true.
  apply bool_decide_eq_false. by rewrite H.
Qed.


Lemma parse_quorum value t ts :
  tokens value = t :: ts →
  StrIcaseEqual t kQuorumKeyword = true →
  ParseSyncStandbyNames value = [].
Proof.
  intros Hs Hq. unfold ParseSyncStandbyNames.
  by rewrite (ConsumeToken_cons _ _ _ Hs), Hq.
Qed.




Lemma elem_of_drop_while p c s : c ∈ drop_while p s → c ∈ s.
Proof.
  induction s as [|d s IH]; simpl; [done|].
  destruct (p d); [|done]. intros ?%IH. apply elem_of_cons. by right.
Qed.

Lemma has_open_paren_after_token s :
  has_open_paren s = false → has_open_paren (after_token s) = false.
Proof.
  unfold has_open_paren. intros H%bool_decide_eq_false.
  apply bool_decide_eq_false. intros Hin. apply H.
  by do 2 apply elem_of_drop_while in Hin.
Qed.

End parser.

Section parse_size.
Import Grammar.

Lemma decimal_fold_ge acc s : (acc ≤ foldl decimal_step acc s)%N.
Proof.
  revert acc. induction s as [|c s IH]; intros acc; simpl; [lia|].
  etrans; [|apply IH]. unfold decimal_step. lia.
Qed.

Lemma ParseSize_from_decimal acc s :
  Forall (λ c, is_digit c = true) s →
  (foldl decimal_step acc s < 2 ^ 64)%N →
  ParseSize_from acc s = foldl decimal_step acc s.
Proof.
  revert acc. induction s as [|c s IH]; intros acc Hd Hb; [done|].
  apply Forall_cons in Hd as [Hc Hd]. simpl in *.
  unfold is_digit in Hc. apply andb_true_iff in Hc as [H1%Nat.leb_le H2%Nat.leb_le].
  rewrite (proj2 (Nat.ltb_ge _ _) H1), (proj2 (Nat.ltb_ge _ _) H2). simpl.
  pose proof (decimal_fold_ge (decimal_step acc c) s) as Hge. unfold decimal_step in Hge, Hb.
  unfold size_t_wrap.
  rewrite (N.mod_small (acc * 10)) by lia.
  rewrite N.mod_small by lia. by apply IH.
Qed.

(** On a string of digits whose value fits [size_t], [ParseSize] is the
    decimal value. *)
Lemma ParseSize_decimal s :
  Forall (λ c, is_digit c = true) s →
  (decimal_value s < 2 ^ 64)%N →
  ParseSize s = decimal_value s.
Proof. apply ParseSize_from_decimal. Qed.

(** A token that does not start with a digit counts as zero. *)
Lemma ParseSize_not_number c s : is_digit c = false → ParseSize (c :: s) = 0%N.
Proof.
  unfold ParseSize, is_digit. intros H. cbn [ParseSize_from].
  destruct (Nat.ltb_spec (nat_of_ascii c) 48) as [|H1]; [done|].
  destruct (Nat.ltb_spec 57 (nat_of_ascii c)) as [|H2]; [done|].
  apply andb_false_iff in H as [H%Nat.leb_gt|H%Nat.leb_gt]; lia.
Qed.

End parse_size.

Section parser_claims.
Import Grammar.




End parser_claims.

(** ** The probe *)

Section probe.



(** C6 (as amended).  The deadline of [kCheckTimeout] is made once the
    connection is there, so [Connect] runs outside it; it is handed to
    [CheckReadOnly] alone; the SHOW query is executed without a deadline. *)
Theorem RunCheck_deadline_scope idx state env :
  let evs := res_events (RunCheck idx state env) in
  (∃ pre post,
     evs = pre ++ post ∧
     (pre = [] ∨ pre = [EvConnect idx kConnectionId None]) ∧
     (post = [] ∨
      post = [EvMakeExecuteDeadline kCheckTimeout;
              EvCheckReadOnly (Some (MakeExecuteDeadline kCheckTimeout))] ∨
      post = [EvMakeExecuteDeadline kCheckTimeout;
              EvCheckReadOnly (Some (MakeExecuteDeadline kCheckTimeout));
              EvExecute kShowSyncStandbyNames None])) ∧
  (∀ e, e ∈ evs → is_Some (event_deadline e) →
        e = EvCheckReadOnly (Some (MakeExecuteDeadline kCheckTimeout))).
Proof.
  assert (∀ st evs,
    res_events (RunCheck_connected st env evs) =
      evs ++ [EvMakeExecuteDeadline kCheckTimeout;
              EvCheckReadOnly (Some (MakeExecuteDeadline kCheckTimeout))] ∨
    res_events (RunCheck_connected st env evs) =
      evs ++ [EvMakeExecuteDeadline kCheckTimeout;
              EvCheckReadOnly (Some (MakeExecuteDeadline kCheckTimeout));
              EvExecute kShowSyncStandbyNames None]) as Hconn.
  { intros st evs. unfold RunCheck_connected.
    destruct (env_check_read_only env) as [[|]|]; simpl; auto;
      destruct (env_show_sync_standby_names env); simpl;
      rewrite <-?app_assoc; auto. }
  assert (∃ pre post,
     res_events (RunCheck idx state env) = pre ++ post ∧
     (pre = [] ∨ pre = [EvConnect idx kConnectionId None]) ∧
     (post = [] ∨
      post = [EvMakeExecuteDeadline kCheckTimeout;
              EvCheckReadOnly (Some (MakeExecuteDeadline kCheckTimeout))] ∨
      post = [EvMakeExecuteDeadline kCheckTimeout;
              EvCheckReadOnly (Some (MakeExecuteDeadline kCheckTimeout));
              EvExecute kShowSyncStandbyNames None])) as Hshape.
  { unfold RunCheck. destruct (connection state).
    - exists []. destruct (Hconn state []) as [->| ->];
        (eexists; split; [reflexivity|]; split; auto).
    - exists [EvConnect idx kConnectionId None].
      destruct (env_connect env) as [c|e].
      + destruct (Hconn (set_connection (Some c) state)
                    [EvConnect idx kConnectionId None]) as [->| ->];
          (eexists; split; [reflexivity|]; split; auto).
      + exists []. simpl. auto. }
  simpl. split; [done|].
  destruct Hshape as (pre & post & -> & Hpre & Hpost).
  intros e He [d Hd].
  apply elem_of_app in He as [He|He].
  - destruct Hpre as [->| ->]; [by apply elem_of_nil in He|].
    apply list_elem_of_singleton in He as ->. done.
  - destruct Hpost as [->|[->| ->]]; [by apply elem_of_nil in He|..];
      repeat (apply elem_of_cons in He as [->|He]; [by simplify_eq/=|]);
      by apply elem_of_nil in He.
Qed.

(** C6 as it is worded fails: a probe of a primary succeeds with a [Connect]
    issued before any deadline exists and a SHOW query issued with none. *)
Lemma RunCheck_deadline_counterexample :
  let r := RunCheck 0 (HostState_new (sv "host_a"))
             (env_master 3000 (sv "host_b")) in
  res_released r = true ∧
  res_events r =
    [EvConnect 0 kConnectionId None;
     EvMakeExecuteDeadline kCheckTimeout;
     EvCheckReadOnly (Some (MakeExecuteDeadline kCheckTimeout));
     EvExecute kShowSyncStandbyNames None] ∧
  ¬ governed_by_check_deadline (res_events r).
Proof.
  split; [done|]. split; [done|]. intros H.
  specialize (H (EvExecute kShowSyncStandbyNames None)).
  simpl in H. discriminate H; [|done].
  do 3 (apply elem_of_cons; right). apply elem_of_cons. by left.
Qed.


(** A probe never reports [kSyncSlave] and keeps the name of the host. *)
Lemma RunCheck_role idx state env :
  role (res_state (RunCheck idx state env)) ≠ kSyncSlave.
Proof.
  unfold RunCheck, RunCheck_connected.
  by destruct state as [[c|] hp an ro rt ds],
    env as [[c'|e1] [[|]|e2] el [res|e3]].
Qed.

Lemma RunCheck_role_None idx state env :
  role (res_state (RunCheck idx state env)) = kNone
  ↔ is_Some (probe_failure state env).
Proof.
  unfold RunCheck, probe_failure, RunCheck_connected.
  destruct state as [[c|] hp an ro rt ds],
    env as [[c'|e1] [[|]|e2] el [res|e3]]; simpl;
    (split; [intros ?; try done; by eexists|by intros [? ?]]).
Qed.

End probe.

(** ** Sorting routines that meet the contract of [std::sort] *)

Section sorting.
Context {A : Type} (comp : A → A → bool) (Hcomp : StrictWeakOrder comp).

Lemma swo_asymmetric a b : comp a b = true → comp b a = false.
Proof.
  intros Hab. destruct (comp b a) eqn:Hba; [|done].
  pose proof (swo_transitive comp Hcomp _ _ _ Hab Hba) as Haa.
  by rewrite (swo_irreflexive comp Hcomp) in Haa.
Qed.

(** "Not less than" is transitive. *)
Lemma swo_not_less_transitive a b c :
  comp b a = false → comp c b = false → comp c a = false.
Proof.
  intros Hba Hcb. destruct (comp c a) eqn:Hca; [|done].
  destruct (comp a b) eqn:Hab.
  { by rewrite (swo_transitive comp Hcomp _ _ _ Hca Hab) in Hcb. }
  destruct (comp b c) eqn:Hbc.
  { by rewrite (swo_transitive comp Hcomp _ _ _ Hbc Hca) in Hba. }
  destruct (swo_equiv_transitive comp Hcomp c b a Hcb Hbc Hba Hab) as [Hx _].
  congruence.
Qed.

Lemma insert_sorted_perm x l : insert_sorted comp x l ≡ₚ x :: l.
Proof.
  induction l as [|y l IH]; simpl; [done|].
  destruct (comp y x); [|done]. rewrite IH. apply Permutation_swap.
Qed.

Lemma insert_sorted_sorted x l :
  StronglySorted (λ a b, comp b a = false) l →
  StronglySorted (λ a b, comp b a = false) (insert_sorted comp x l).
Proof.
  induction l as [|y l IH]; simpl; intros Hl.
  - repeat constructor.
  - apply StronglySorted_cons in Hl as [Hy Hl].
    destruct (comp y x) eqn:Hyx.
    + apply StronglySorted_cons. split; [|by apply IH].
      rewrite insert_sorted_perm. constructor; [|done].
      by apply swo_asymmetric.
    + apply StronglySorted_cons. split; [|by apply StronglySorted_cons].
      constructor; [done|].
      eapply Forall_impl; [exact Hy|]. simpl. intros z Hzy.
      by apply (swo_not_less_transitive x y z).
Qed.

Lemma insertion_sort_perm l : insertion_sort comp l ≡ₚ l.
Proof.
  induction l as [|x l IH]; simpl; [done|].
  by rewrite insert_sorted_perm, IH.
Qed.

Lemma insertion_sort_sorted l :
  StronglySorted (λ a b, comp b a = false) (insertion_sort comp l).
Proof.
  induction l as [|x l IH]; simpl; [constructor|].
  by apply insert_sorted_sorted.
Qed.

Lemma front_insertion_perm acc l :
  foldl (λ acc x, insert_sorted comp x acc) acc l ≡ₚ l ++ acc.
Proof.
  revert acc. induction l as [|x l IH]; intros acc; simpl; [done|].
  rewrite IH, insert_sorted_perm. by rewrite Permutation_middle.
Qed.

Lemma front_insertion_sorted acc l :
  StronglySorted (λ a b, comp b a = false) acc →
  StronglySorted (λ a b, comp b a = false)
    (foldl (λ acc x, insert_sorted comp x acc) acc l).
Proof.
  revert acc. induction l as [|x l IH]; intros acc Hacc; simpl; [done|].
  by apply IH, insert_sorted_sorted.
Qed.

End sorting.

Lemma StableStdSort_contract : StdSortContract StableStdSort.
Proof.
  split; intros A comp l Hcomp.
  - apply insertion_sort_perm.
  - by apply insertion_sort_sorted.
Qed.

Lemma UnstableStdSort_contract : StdSortContract UnstableStdSort.
Proof.
  split; intros A comp l Hcomp.
  - unfold std_sort, UnstableStdSort, front_insertion_sort.
    by rewrite front_insertion_perm, app_nil_r.
  - apply front_insertion_sorted; [done|constructor].
Qed.

(** ** Joining the probes *)

Section join.

Lemma join_tasks_inr i tasks alive :
  Forall (λ t, res_thrown t = None) tasks →
  join_tasks i tasks alive = inr (alive ++ alive_from i (res_state <$> tasks)).
Proof.
  revert i alive. induction tasks as [|t tasks IH]; intros i alive Hok; simpl.
  - by rewrite app_nil_r.
  - apply Forall_cons in Hok as [Ht Hok]. rewrite Ht, (IH _ _ Hok).
    case_bool_decide; [|done]. by rewrite <-app_assoc.
Qed.

Lemma join_tasks_inr_inv i tasks alive alive' :
  join_tasks i tasks alive = inr alive' →
  Forall (λ t, res_thrown t = None) tasks.
Proof.
  revert i alive. induction tasks as [|t tasks IH]; intros i alive; simpl.
  - constructor.
  - destruct (res_thrown t) eqn:Ht; [done|]. intros H%IH. by constructor.
Qed.

Lemma join_tasks_inl i tasks alive j e :
  join_tasks i tasks alive = inl (j, e) →
  ∃ k t, j = i + k ∧ tasks !! k = Some t ∧ res_thrown t = Some e.
Proof.
  revert i alive. induction tasks as [|t tasks IH]; intros i alive; simpl.
  - done.
  - destruct (res_thrown t) eqn:Ht.
    + intros [= <- <-]. exists 0, t. split; [lia|done].
    + intros (k & t' & -> & Hk & He)%IH. exists (S k), t'.
      split; [lia|done].
Qed.

Lemma elem_of_alive_from i hs j :
  j ∈ alive_from i hs ↔
  ∃ k s, j = i + k ∧ hs !! k = Some s ∧ role s ≠ kNone.
Proof.
  revert i. induction hs as [|s hs IH]; intros i; simpl.
  - rewrite elem_of_nil. split; [done|]. by intros (k & s & _ & ? & _).
  - assert ((∃ k s', j = S i + k ∧ hs !! k = Some s' ∧ role s' ≠ kNone) ∨
            (j = i ∧ role s ≠ kNone)
            ↔ ∃ k s', j = i + k ∧ (s :: hs) !! k = Some s' ∧ role s' ≠ kNone)
      as Hiff.
    { split.
      - intros [(k & s' & -> & Hk & Hr)|[-> Hr]].
        + exists (S k), s'. split; [lia|done].
        + exists 0, s. split; [lia|done].
      - intros ([|k] & s' & -> & Hk & Hr); simplify_eq/=.
        + right. split; [lia|done].
        + left. exists k, s'. split; [lia|done]. }
    rewrite <-Hiff. case_bool_decide as Hs.
    + rewrite elem_of_cons, IH. tauto.
    + rewrite IH. tauto.
Qed.

Lemma alive_from_lower_bound i hs j : j ∈ alive_from i hs → i ≤ j.
Proof. rewrite elem_of_alive_from. intros (k & s & -> & _). lia. Qed.

Lemma NoDup_alive_from i hs : NoDup (alive_from i hs).
Proof.
  revert i. induction hs as [|s hs IH]; intros i; simpl; [constructor|].
  case_bool_decide; [|done]. apply NoDup_cons. split; [|done].
  intros Hin%alive_from_lower_bound. lia.
Qed.

(** The alive indices come in ascending order. *)
Lemma alive_from_ascending i hs : StronglySorted lt (alive_from i hs).
Proof.
  revert i. induction hs as [|s hs IH]; intros i; simpl; [constructor|].
  case_bool_decide; [|done]. apply StronglySorted_cons. split; [|done].
  apply Forall_forall. intros j Hin%alive_from_lower_bound. lia.
Qed.

Lemma alive_from_ext i hs hs' :
  Forall2 (λ s s', role s = kNone ↔ role s' = kNone) hs hs' →
  alive_from i hs = alive_from i hs'.
Proof.
  intros H. revert i. induction H as [|s s' hs hs' Hs _ IH]; intros i; [done|].
  simpl. rewrite (IH (S i)).
  rewrite (bool_decide_ext (role s ≠ kNone) (role s' ≠ kNone)); [done|].
  by rewrite Hs.
Qed.

End join.

(** ** The attribution pass *)

Section attribution.

Lemma name_matches_set_role names r s :
  name_matches names (set_role r s) = name_matches names s.
Proof. done. Qed.

Lemma attributed_set_role alive names j s :
  attributed alive names j (set_role kSyncSlave s) = set_role kSyncSlave s.
Proof. unfold attributed. by destruct (_ && _). Qed.

Lemma attributed_cons_alive a alive names j s :
  attributed alive names j (attributed [a] names j s)
  = attributed (a :: alive) names j s.
Proof.
  unfold attributed at 2 3.
  rewrite (bool_decide_ext (j ∈ a :: alive) (j = a ∨ j ∈ alive))
    by apply elem_of_cons.
  rewrite (bool_decide_ext (j ∈ [a]) (j = a)) by apply list_elem_of_singleton.
  destruct (name_matches names s) eqn:Hm.
  - case_bool_decide as Ha; simpl.
    + rewrite bool_decide_eq_true_2 by auto. apply attributed_set_role.
    + unfold attributed. rewrite Hm.
      by rewrite (bool_decide_ext (j = a ∨ j ∈ alive) (j ∈ alive)) by tauto.
  - rewrite !andb_false_r. unfold attributed. by rewrite Hm, andb_false_r.
Qed.

Lemma attributed_cons_name alive n names j s :
  attributed alive names j (attributed alive [n] j s)
  = attributed alive (n :: names) j s.
Proof.
  unfold attributed at 2 3. unfold name_matches at 1 2. simpl.
  rewrite orb_false_r.
  destruct (bool_decide (j ∈ alive)) eqn:Hj; simpl.
  - destruct (StrIcaseEqual (app_name s) n); simpl.
    + apply attributed_set_role.
    + unfold attributed. by rewrite Hj.
  - unfold attributed. by rewrite Hj.
Qed.

Lemma attributed_nil_alive names j s : attributed [] names j s = s.
Proof.
  unfold attributed. by rewrite (bool_decide_eq_false_2 _ (not_elem_of_nil j)).
Qed.

Lemma attributed_nil_names alive j s : attributed alive [] j s = s.
Proof. unfold attributed. by rewrite andb_false_r. Qed.

Lemma mark_step_lookup name (hs : list HostState) a j :
  match hs !! a with
  | Some state =>
      if StrIcaseEqual (app_name state) name
      then <[a := set_role kSyncSlave state]> hs else hs
  | None => hs
  end !! j = attributed [a] [name] j <$> hs !! j.
Proof.
  unfold attributed, name_matches. simpl.
  rewrite (bool_decide_ext (j ∈ [a]) (j = a)) by apply list_elem_of_singleton.
  destruct (hs !! a) as [state|] eqn:Ha.
  - destruct (StrIcaseEqual (app_name state) name) eqn:Hm.
    + destruct (decide (j = a)) as [->|Hne].
      * rewrite list_lookup_insert_eq by by eapply lookup_lt_Some.
        rewrite Ha. simpl. by rewrite bool_decide_eq_true_2, Hm by done.
      * rewrite list_lookup_insert_ne by done.
        rewrite (bool_decide_eq_false_2 _ Hne). simpl.
        symmetry. apply (option_fmap_id (hs !! j)).
    + destruct (hs !! j) as [s|] eqn:Hj; [|done]. simpl. f_equal.
      case_bool_decide as Hja; [|done]. subst. simplify_eq.
      by rewrite Hm.
  - destruct (hs !! j) as [s|] eqn:Hj; [|done]. simpl. f_equal.
    case_bool_decide as Hja; [|done]. subst. simplify_eq.
Qed.

Lemma mark_sync_slaves_lookup name alive hs j :
  mark_sync_slaves name alive hs !! j = attributed alive [name] j <$> hs !! j.
Proof.
  unfold mark_sync_slaves. revert hs.
  induction alive as [|a alive IH]; intros hs; simpl.
  - destruct (hs !! j); [|done]. simpl. by rewrite attributed_nil_alive.
  - rewrite IH, mark_step_lookup. destruct (hs !! j); [|done]. simpl.
    by rewrite attributed_cons_alive.
Qed.

Lemma mark_all_lookup names alive hs j :
  foldl (λ hs ss_app_name, mark_sync_slaves ss_app_name alive hs) hs names !! j
  = attributed alive names j <$> hs !! j.
Proof.
  revert hs. induction names as [|n names IH]; intros hs; simpl.
  - destruct (hs !! j); [|done]. simpl. by rewrite attributed_nil_names.
  - rewrite IH, mark_sync_slaves_lookup. destruct (hs !! j); [|done]. simpl.
    by rewrite attributed_cons_name.
Qed.

(** The attribution pass, slot by slot: a slot becomes [kSyncSlave] when its
    index is alive and its name matches one of the names of the first master;
    it is left alone otherwise. *)
Lemma attribute_sync_slaves_lookup alive hs j :
  attribute_sync_slaves alive hs !! j
  = attributed alive (master_sync_names hs) j <$> hs !! j.
Proof.
  unfold attribute_sync_slaves, master_sync_names.
  destruct (find_master hs) as [[m master]|].
  - case_bool_decide as Hnil; simpl.
    + rewrite Hnil. destruct (hs !! j); [|done]. simpl.
      by rewrite attributed_nil_names.
    + apply mark_all_lookup.
  - destruct (hs !! j); [|done]. simpl. by rewrite attributed_nil_names.
Qed.

Lemma attribute_sync_slaves_imap alive hs :
  attribute_sync_slaves alive hs
  = imap (attributed alive (master_sync_names hs)) hs.
Proof.
  apply list_eq. intros j.
  by rewrite attribute_sync_slaves_lookup, list_lookup_imap.
Qed.

Lemma rtt_at_attribute alive hs j :
  rtt_at (attribute_sync_slaves alive hs) j = rtt_at hs j.
Proof.
  unfold rtt_at. rewrite attribute_sync_slaves_lookup.
  destruct (hs !! j) as [s|]; [|done]. simpl. unfold attributed.
  by destruct (_ && _).
Qed.

Lemma role_at_attribute alive hs j :
  role_at (attribute_sync_slaves alive hs) j =
    match hs !! j with
    | Some s =>
        if bool_decide (j ∈ alive) && name_matches (master_sync_names hs) s
        then kSyncSlave else role s
    | None => kNone
    end.
Proof.
  unfold role_at. rewrite attribute_sync_slaves_lookup.
  destruct (hs !! j) as [s|]; [|done]. simpl. unfold attributed.
  by destruct (_ && _).
Qed.

End attribution.

(** ** The published views *)

Section views.

Lemma build_step_bucket hs idx (m : DsnIndicesByType) t :
  bucket
    (let m := push_back_at (role_at hs idx) idx m in
     if bool_decide (role_at hs idx = kSyncSlave)
     then push_back_at kSlave idx m else m) t
  = bucket m t ++ filter (in_bucket hs t) [idx].
Proof.
  unfold bucket, push_back_at, in_bucket. simpl.
  rewrite filter_cons, filter_nil.
  destruct (decide (role_at hs idx = t)) as [Ht|Ht].
  - rewrite decide_True by auto. subst t.
    case_bool_decide as Hss.
    + rewrite Hss. rewrite lookup_total_insert_ne by done.
      by rewrite lookup_total_insert_eq.
    + by rewrite lookup_total_insert_eq.
  - case_bool_decide as Hss.
    + destruct (decide (t = kSlave)) as [->|Hsl].
      * rewrite decide_True by auto.
        rewrite lookup_total_insert_eq.
        by rewrite lookup_total_insert_ne by done.
      * rewrite decide_False by tauto.
        rewrite !lookup_total_insert_ne by done. by rewrite app_nil_r.
    + rewrite decide_False by tauto.
      rewrite lookup_total_insert_ne by done. by rewrite app_nil_r.
Qed.

Lemma build_fold_bucket hs l (m : DsnIndicesByType) t :
  bucket
    (foldl (λ m idx,
              let m := push_back_at (role_at hs idx) idx m in
              if bool_decide (role_at hs idx = kSyncSlave)
              then push_back_at kSlave idx m else m) m l) t
  = bucket m t ++ filter (in_bucket hs t) l.
Proof.
  revert m. induction l as [|idx l IH]; intros m.
  - by rewrite filter_nil, app_nil_r.
  - cbn [foldl]. rewrite IH, build_step_bucket, <-app_assoc, <-filter_app.
    done.
Qed.

(** A bucket holds the sorted alive indices that belong to it, in their
    order. *)
Lemma build_indices_by_type_bucket hs l t :
  bucket (build_indices_by_type hs l) t = filter (in_bucket hs t) l.
Proof.
  unfold build_indices_by_type. rewrite build_fold_bucket.
  unfold bucket at 1. by rewrite lookup_total_empty.
Qed.

Lemma StronglySorted_filter {A} (R : relation A) (P : A → Prop)
    `{∀ x, Decision (P x)} l :
  StronglySorted R l → StronglySorted R (filter P l).
Proof.
  induction l as [|x l IH]; [done|]. intros [Hx Hl]%StronglySorted_cons.
  rewrite filter_cons. destruct (decide (P x)); [|by apply IH].
  apply StronglySorted_cons. split; [|by apply IH].
  rewrite Forall_forall in Hx |- *.
  intros y [_ Hy]%list_elem_of_filter. by apply Hx.
Qed.

Lemma StronglySorted_weaken {A} (R R' : relation A) l :
  (∀ a b, R a b → R' a b) → StronglySorted R l → StronglySorted R' l.
Proof.
  intros HR. induction l as [|x l IH]; [constructor|].
  intros [Hx Hl]%StronglySorted_cons. apply StronglySorted_cons.
  split; [|by apply IH]. eapply Forall_impl; [exact Hx|]. apply HR.
Qed.

Lemma rtt_less_strict_weak_order hs : StrictWeakOrder (rtt_less hs).
Proof.
  unfold rtt_less. split.
  - intros a. apply bool_decide_eq_false. lia.
  - intros a b c ?%bool_decide_eq_true ?%bool_decide_eq_true.
    apply bool_decide_eq_true. lia.
  - intros a b c ?%bool_decide_eq_false ?%bool_decide_eq_false
      ?%bool_decide_eq_false ?%bool_decide_eq_false.
    split; apply bool_decide_eq_false; lia.
Qed.

End views.

(** ** The discovery cycle *)

Section discovery.
Context {S : StdSort} {HS : StdSortContract S}.

Lemma RunDiscovery_Published impl env impl' :
  RunDiscovery impl env = Published impl' →
  impl' = aggregate (probed_states impl env)
            (alive_from 0 (probed_states impl env)).
Proof.
  unfold RunDiscovery, probed_states.
  destruct (join_tasks 0 _ []) as [[i e]|alive] eqn:Hj; [done|].
  intros [= <-]. pose proof (join_tasks_inr_inv _ _ _ _ Hj) as Hok.
  rewrite (join_tasks_inr _ _ _ Hok) in Hj. by simplify_eq/=.
Qed.



Lemma aggregate_alive_perm hs alive :
  alive_dsn_indices_ (aggregate hs alive) ≡ₚ alive.
Proof. apply std_sort_permutation, rtt_less_strict_weak_order. Qed.

Lemma aggregate_alive_sorted hs alive :
  rtt_sorted (host_states_ (aggregate hs alive))
    (alive_dsn_indices_ (aggregate hs alive)).
Proof.
  unfold rtt_sorted. simpl.
  eapply StronglySorted_weaken;
    [|apply std_sort_sorted, rtt_less_strict_weak_order].
  unfold rtt_less. simpl. intros a b ?%bool_decide_eq_false. lia.
Qed.

Lemma aggregate_bucket hs alive t :
  bucket (dsn_indices_by_type_ (aggregate hs alive)) t
  = filter (in_bucket (host_states_ (aggregate hs alive)) t)
      (alive_dsn_indices_ (aggregate hs alive)).
Proof. apply build_indices_by_type_bucket. Qed.

(** The attribution pass keeps the set of alive indices. *)
Lemma alive_from_attribute hs :
  alive_from 0 (attribute_sync_slaves (alive_from 0 hs) hs) = alive_from 0 hs.
Proof.
  apply alive_from_ext, Forall2_same_length_lookup. split.
  { by rewrite attribute_sync_slaves_imap, length_imap. }
  intros j s' s. rewrite attribute_sync_slaves_lookup. intros Hs' Hs.
  rewrite Hs in Hs'. simplify_eq/=. unfold attributed.
  destruct (bool_decide (j ∈ alive_from 0 hs)) eqn:Hj; [|done].
  destruct (name_matches _ s); [|done]. simpl.
  apply bool_decide_eq_true, elem_of_alive_from in Hj
    as (k & s0 & -> & Hk & Hr). simpl in Hs. by simplify_eq.
Qed.

Lemma aggregate_alive_from hs :
  alive_from 0 (host_states_ (aggregate hs (alive_from 0 hs)))
  = alive_from 0 hs.
Proof. apply alive_from_attribute. Qed.

Lemma elem_of_alive_role_at hs j :
  j ∈ alive_from 0 hs ↔ role_at hs j ≠ kNone.
Proof.
  rewrite elem_of_alive_from. unfold role_at. split.
  - intros (k & s & -> & Hk & Hr). simpl. by rewrite Hk.
  - destruct (hs !! j) as [s|] eqn:Hj; [|done]. simpl. intros Hr.
    by exists j, s.
Qed.

Lemma run_checks_lookup env hs i :
  run_checks env hs !! i = (λ state, RunCheck i state (env i)) <$> hs !! i.
Proof. apply list_lookup_imap. Qed.

Lemma probed_states_lookup impl env i :
  probed_states impl env !! i
  = (λ state, res_state (RunCheck i state (env i))) <$> host_states_ impl !! i.
Proof.
  unfold probed_states. rewrite list_lookup_fmap, run_checks_lookup.
  by destruct (host_states_ impl !! i).
Qed.


(** C7.  Every index of a published view, the alive list or a bucket of the
    mapping, has a role other than [kNone] in the host states of that
    moment. *)
Theorem published_indices_have_role impl env impl' :
  RunDiscovery impl env = Published impl' →
  (∀ i, i ∈ alive_dsn_indices_ impl' →
        role_at (host_states_ impl') i ≠ kNone) ∧
  (∀ t i, i ∈ bucket (dsn_indices_by_type_ impl') t →
          role_at (host_states_ impl') i ≠ kNone).
Proof.
  intros ->%RunDiscovery_Published.
  assert (∀ i, i ∈ alive_dsn_indices_
                     (aggregate (probed_states impl env)
                        (alive_from 0 (probed_states impl env))) →
               role_at (host_states_
                          (aggregate (probed_states impl env)
                             (alive_from 0 (probed_states impl env)))) i
               ≠ kNone) as Halive.
  { intros i Hi. apply elem_of_alive_role_at.
    rewrite aggregate_alive_from. by rewrite aggregate_alive_perm in Hi. }
  split; [done|]. intros t i. rewrite aggregate_bucket.
  intros [_ Hi]%list_elem_of_filter. by apply Halive.
Qed.

(** C8.  In a published mapping an index whose role is [kSyncSlave] occurs
    exactly once in the [kSyncSlave] bucket and exactly once in the [kSlave]
    bucket; every bucket keeps the order of the published alive list and is
    sorted by non-decreasing round-trip time. *)
Theorem sync_slave_in_both_buckets impl env impl' :
  RunDiscovery impl env = Published impl' →
  (∀ i, role_at (host_states_ impl') i = kSyncSlave →
        count_occ Nat.eq_dec
          (bucket (dsn_indices_by_type_ impl') kSyncSlave) i = 1 ∧
        count_occ Nat.eq_dec
          (bucket (dsn_indices_by_type_ impl') kSlave) i = 1) ∧
  (∀ t, bucket (dsn_indices_by_type_ impl') t
          `sublist_of` alive_dsn_indices_ impl' ∧
        rtt_sorted (host_states_ impl')
          (bucket (dsn_indices_by_type_ impl') t)).
Proof.
  intros ->%RunDiscovery_Published.
  set (hs := probed_states impl env).
  assert (NoDup (alive_dsn_indices_ (aggregate hs (alive_from 0 hs))))
    as Hnd.
  { rewrite aggregate_alive_perm. apply NoDup_alive_from. }
  split.
  - intros i Hi.
    assert (i ∈ alive_dsn_indices_ (aggregate hs (alive_from 0 hs))) as Hin.
    { rewrite aggregate_alive_perm, <-aggregate_alive_from.
      apply elem_of_alive_role_at. by rewrite Hi. }
    rewrite !aggregate_bucket.
    split; apply NoDup_count_occ'.
    + apply NoDup_ListNoDup, NoDup_filter, Hnd.
    + apply list_elem_of_In, list_elem_of_filter. split; [by left|done].
    + apply NoDup_ListNoDup, NoDup_filter, Hnd.
    + apply list_elem_of_In, list_elem_of_filter. split; [by right|done].
  - intros t. rewrite aggregate_bucket. split; [apply sublist_filter|].
    apply StronglySorted_filter, aggregate_alive_sorted.
Qed.

(** C2 (as amended).  The published alive list is a rearrangement of the
    indices whose role is not [kNone], sorted by non-decreasing round-trip
    time; the order among indices of equal round-trip time is left to
    [std::sort]. *)
Theorem alive_sorted_by_rtt impl env impl' :
  RunDiscovery impl env = Published impl' →
  alive_dsn_indices_ impl' ≡ₚ alive_from 0 (host_states_ impl') ∧
  rtt_sorted (host_states_ impl') (alive_dsn_indices_ impl').
Proof.
  intros ->%RunDiscovery_Published. split.
  - by rewrite aggregate_alive_from, aggregate_alive_perm.
  - apply aggregate_alive_sorted.
Qed.


End discovery.

(** ** Scenarios of the discovery cycle *)

Section scenarios.

(** Scenario S6, with a sort that keeps equal elements in order. *)
Example scenario_S6_published :
  @RunDiscovery StableStdSort scenario_S6_impl scenario_S6_env
  = Published scenario_S6_views.
Proof. reflexivity. Qed.

Example scenario_S6_alive : alive_dsn_indices_ scenario_S6_views = [2; 0; 1].
Proof. reflexivity. Qed.

Example scenario_S6_buckets :
  bucket (dsn_indices_by_type_ scenario_S6_views) kMaster = [0] ∧
  bucket (dsn_indices_by_type_ scenario_S6_views) kSyncSlave = [1] ∧
  bucket (dsn_indices_by_type_ scenario_S6_views) kSlave = [2; 1] ∧
  bucket (dsn_indices_by_type_ scenario_S6_views) kNone = [].
Proof. repeat split; vm_compute; reflexivity. Qed.

(** No host at all: both views are empty. *)
Example no_host_published env :
  @RunDiscovery StableStdSort (Impl_new []) env
  = Published {| host_states_ := []; dsn_indices_by_type_ := ∅;
                 alive_dsn_indices_ := [] |}.
Proof. reflexivity. Qed.

End scenarios.

(** ** The claims on concrete clusters *)

Section instances.

Lemma published_indices_have_role_witness :
  role_at (host_states_ scenario_S6_views) 2 ≠ kNone ∧
  role_at (host_states_ scenario_S6_views) 1 ≠ kNone.
Proof.
  destruct (published_indices_have_role (HS := StableStdSort_contract)
              scenario_S6_impl scenario_S6_env scenario_S6_views eq_refl)
    as [Halive Hbucket].
  split.
  - apply Halive. apply list_elem_of_In. vm_compute. auto.
  - apply (Hbucket kSyncSlave). apply list_elem_of_In. vm_compute. auto.
Defined.

Lemma sync_slave_in_both_buckets_witness :
  count_occ Nat.eq_dec
    (bucket (dsn_indices_by_type_ scenario_S6_views) kSyncSlave) 1 = 1 ∧
  count_occ Nat.eq_dec
    (bucket (dsn_indices_by_type_ scenario_S6_views) kSlave) 1 = 1.
Proof.
  apply (proj1 (sync_slave_in_both_buckets (HS := StableStdSort_contract)
                  scenario_S6_impl scenario_S6_env scenario_S6_views eq_refl)).
  reflexivity.
Defined.

Lemma alive_sorted_by_rtt_witness :
  alive_dsn_indices_ scenario_S6_views
    ≡ₚ alive_from 0 (host_states_ scenario_S6_views) ∧
  rtt_sorted (host_states_ scenario_S6_views)
    (alive_dsn_indices_ scenario_S6_views).
Proof.
  apply (alive_sorted_by_rtt (HS := StableStdSort_contract)
           scenario_S6_impl scenario_S6_env scenario_S6_views eq_refl).
Defined.



Lemma RunCheck_deadline_scope_witness :
  ∃ pre post,
    res_events (RunCheck 0 (HostState_new (sv "host_a"))
                  (env_master 3000 (sv "host_b"))) = pre ++ post ∧
    (pre = [] ∨ pre = [EvConnect 0 kConnectionId None]) ∧
    (post = [] ∨
     post = [EvMakeExecuteDeadline kCheckTimeout;
             EvCheckReadOnly (Some (MakeExecuteDeadline kCheckTimeout))] ∨
     post = [EvMakeExecuteDeadline kCheckTimeout;
             EvCheckReadOnly (Some (MakeExecuteDeadline kCheckTimeout));
             EvExecute kShowSyncStandbyNames None]).
Proof.
  exact (proj1 (RunCheck_deadline_scope 0 (HostState_new (sv "host_a"))
                  (env_master 3000 (sv "host_b")))).
Defined.

End instances.

(** ** Which names the attribution pass uses, and whom it promotes *)

Section promotion.

Lemma find_master_lowest hs m master :
  hs !! m = Some master →
  role master = kMaster →
  (∀ k s, k < m → hs !! k = Some s → role s ≠ kMaster) →
  find_master hs = Some (m, master).
Proof.
  intros Hm Hr Hlow. apply list_find_Some. split; [done|]. split; [done|].
  intros k s Hk Hlt. by apply (Hlow k s).
Qed.

Lemma role_attributed_set_detected alive names j l s :
  role (attributed alive names j (set_detected_sync_slaves l s))
  = role (attributed alive names j s).
Proof.
  unfold attributed, name_matches. simpl. by destruct (_ && _).
Qed.

(** C10.  With several masters at join time the attribution pass walks the
    names detected by the master of lowest index, and those only: each slot
    is promoted according to that list, and replacing the list of any other
    host, another master included, changes no role. *)
Theorem attribution_uses_lowest_master alive hs m master :
  hs !! m = Some master →
  role master = kMaster →
  (∀ k s, k < m → hs !! k = Some s → role s ≠ kMaster) →
  (∀ j, attribute_sync_slaves alive hs !! j
        = attributed alive (detected_sync_slaves master) j <$> hs !! j) ∧
  (∀ k names,
     k ≠ m →
     role <$> attribute_sync_slaves alive
                (alter (set_detected_sync_slaves names) k hs)
     = role <$> attribute_sync_slaves alive hs).
Proof.
  intros Hm Hr Hlow.
  assert (master_sync_names hs = detected_sync_slaves master) as Hnames.
  { unfold master_sync_names.
    by rewrite (find_master_lowest _ _ _ Hm Hr Hlow). }
  split.
  - intros j. by rewrite attribute_sync_slaves_lookup, Hnames.
  - intros k names Hk.
    assert (master_sync_names (alter (set_detected_sync_slaves names) k hs)
            = detected_sync_slaves master) as Hnames'.
    { unfold master_sync_names. erewrite find_master_lowest; [done| |done|].
      - by rewrite list_lookup_alter_ne.
      - intros i s Hi. rewrite list_lookup_alter.
        case_decide; [subst k|by apply Hlow].
        destruct (hs !! i) as [s0|] eqn:Hs0; [|done]. intros [= <-].
        simpl. by apply (Hlow i s0). }
    apply list_eq. intros j.
    rewrite !list_lookup_fmap, !attribute_sync_slaves_lookup, Hnames, Hnames'.
    rewrite list_lookup_alter. case_decide; [subst k|done].
    destruct (hs !! j) as [s|]; [|done]. simpl.
    by rewrite role_attributed_set_detected.
Qed.

Lemma attribution_uses_lowest_master_witness :
  role <$> attribute_sync_slaves [0; 1; 2; 3] two_masters
    = [kMaster; kMaster; kSyncSlave; kSlave] ∧
  role <$> attribute_sync_slaves [0; 1; 2; 3]
             (alter (set_detected_sync_slaves [sv "r1"; sv "r2"]) 1 two_masters)
    = role <$> attribute_sync_slaves [0; 1; 2; 3] two_masters.
Proof.
  split; [reflexivity|].
  refine (proj2 (attribution_uses_lowest_master [0; 1; 2; 3] two_masters 0 _
                   eq_refl eq_refl _) 1 [sv "r1"; sv "r2"] _).
  - intros k s Hk. lia.
  - lia.
Defined.

(** After a published cycle a host is [kSyncSlave] exactly when its probe
    found it alive and its name matches a name of the first master. *)
Lemma sync_slave_iff {S : StdSort} impl env impl' i :
  RunDiscovery impl env = Published impl' →
  role_at (host_states_ impl') i = kSyncSlave ↔
  ∃ s, probed_states impl env !! i = Some s ∧
       role s ≠ kNone ∧
       name_matches (master_sync_names (probed_states impl env)) s = true.
Proof.
  intros ->%RunDiscovery_Published. simpl. rewrite role_at_attribute.
  destruct (probed_states impl env !! i) as [s|] eqn:Hs.
  - assert (role s ≠ kSyncSlave) as Hprobe.
    { rewrite probed_states_lookup in Hs.
      destruct (host_states_ impl !! i); [|done]. simplify_eq/=.
      apply RunCheck_role. }
    assert (bool_decide (i ∈ alive_from 0 (probed_states impl env))
            = bool_decide (role s ≠ kNone)) as ->.
    { apply bool_decide_ext. rewrite elem_of_alive_role_at. unfold role_at.
      by rewrite Hs. }
    split.
    + destruct (bool_decide (role s ≠ kNone)) eqn:Hr; [|done].
      destruct (name_matches _ s) eqn:Hn; [|done]. intros _.
      exists s. by apply bool_decide_eq_true in Hr.
    + intros (s' & [= <-] & Hr & ->). by rewrite bool_decide_eq_true_2.
  - split; [done|]. by intros (s & ? & _).
Qed.

(** C5, at the input where the source departs from it.  The primary [host_a]
    reports [FIRST 1 (host_a, host_b)]; its probe sets the role [kMaster], and
    the attribution pass, which does not look at the role of the slot it
    marks, turns it into [kSyncSlave]: the [kMaster] bucket is empty and the
    primary is published as a replica. *)
Theorem master_in_own_names_is_promoted :
  ∃ impl',
    @RunDiscovery StableStdSort self_named_impl self_named_env
      = Published impl' ∧
    role <$> probed_states self_named_impl self_named_env
      = [kMaster; kSlave] ∧
    role <$> host_states_ impl' = [kSyncSlave; kSlave] ∧
    bucket (dsn_indices_by_type_ impl') kMaster = [] ∧
    bucket (dsn_indices_by_type_ impl') kSyncSlave = [0] ∧
    bucket (dsn_indices_by_type_ impl') kSlave = [0; 1].
Proof. eexists. split; [reflexivity|]. repeat split; vm_compute; reflexivity. Qed.

End promotion.

(** ** More on the tokenizer and the parser *)

Section parser_more.
Import Grammar.

Lemma Forall_take_while p s : Forall (λ c, p c = true) (take_while p s).
Proof.
  induction s as [|c s IH]; simpl; [constructor|].
  destruct (p c) eqn:Hc; by constructor.
Qed.

Lemma drop_while_nil_Forall p s :
  drop_while p s = [] ↔ Forall (λ c, p c = true) s.
Proof.
  induction s as [|c s IH]; simpl; [by split; [constructor|]|].
  destruct (p c) eqn:Hc.
  - rewrite IH. split; [by constructor|by intros [_ ?]%Forall_cons].
  - split; [done|]. intros [? _]%Forall_cons. congruence.
Qed.

(** X1.  [ConsumeToken] cuts its input in three: the separators it skips, the
    token, and the view it leaves.  The token holds no separator, and the
    view left is empty or starts with a separator: the token is a maximal
    run. *)
Theorem ConsumeToken_splits (sv0 : string_view) :
  ∃ seps,
    sv0 = seps ++ (ConsumeToken sv0).1 ++ (ConsumeToken sv0).2 ∧
    Forall (λ c, is_sep c = true) seps ∧
    Forall (λ c, is_sep c = false) (ConsumeToken sv0).1 ∧
    match (ConsumeToken sv0).2 with
    | [] => True
    | c :: _ => is_sep c = true
    end.
Proof.
  rewrite ConsumeToken_unfold.
  destruct (drop_while is_sep sv0) as [|c s1] eqn:Hs.
  - exists []. simpl. split; [done|]. split; [constructor|].
    split; [constructor|]. apply drop_while_nil_Forall in Hs.
    destruct sv0; [done|]. by apply Forall_cons in Hs as [? _].
  - exists (take_while is_sep sv0). cbn [fst snd].
    rewrite take_drop_while, <-Hs, take_drop_while.
    split; [done|]. split; [apply Forall_take_while|]. split.
    + eapply Forall_impl; [apply (Forall_take_while is_name_char)|].
      unfold is_name_char. intros d Hd. by destruct (is_sep d).
    + apply drop_while_name_head.
Qed.

(** X2.  The token is empty exactly when the input holds separators only (or
    nothing), and then the view is left as it was. *)
Theorem ConsumeToken_empty_token (sv0 : string_view) :
  ((ConsumeToken sv0).1 = [] ↔ Forall (λ c, is_sep c = true) sv0) ∧
  ((ConsumeToken sv0).1 = [] → (ConsumeToken sv0).2 = sv0).
Proof.
  rewrite ConsumeToken_unfold, <-drop_while_nil_Forall.
  pose proof (drop_while_sep_head sv0) as Hh.
  destruct (drop_while is_sep sv0) as [|c s1]; [done|].
  simpl. rewrite Hh. by split.
Qed.

(** X3.  [ConsumeToken] returns the first maximal run of non-separators, and
    the tokens of the view it leaves are the remaining runs. *)
Theorem ConsumeToken_first_run (sv0 : string_view) :
  (ConsumeToken sv0).1 = hd [] (tokens sv0) ∧
  tokens (ConsumeToken sv0).2 = tail (tokens sv0).
Proof. split; [apply ConsumeToken_token|apply ConsumeToken_rest_tokens]. Qed.

Lemma ParseSize_from_app_non_digit acc ds c rest :
  Forall (λ d, is_digit d = true) ds →
  is_digit c = false →
  ParseSize_from acc (ds ++ c :: rest) = ParseSize_from acc ds.
Proof.
  intros Hds Hc. revert acc. induction Hds as [|d ds Hd _ IH]; intros acc.
  - simpl. unfold is_digit in Hc.
    destruct (Nat.ltb_spec (nat_of_ascii c) 48) as [|H1]; [done|].
    destruct (Nat.ltb_spec 57 (nat_of_ascii c)) as [|H2]; [done|].
    apply andb_false_iff in Hc as [Hc%Nat.leb_gt|Hc%Nat.leb_gt]; lia.
  - cbn [app ParseSize_from]. cbv zeta.
    destruct ((nat_of_ascii d <? 48) || (57 <? nat_of_ascii d)); [done|].
    apply IH.
Qed.

(** X4.  [ParseSize] reads the leading digits and nothing after the first
    character that is not a digit. *)
Theorem ParseSize_stops_at_non_digit ds c rest :
  Forall (λ d, is_digit d = true) ds →
  is_digit c = false →
  ParseSize (ds ++ c :: rest) = ParseSize ds.
Proof. apply ParseSize_from_app_non_digit. Qed.

Lemma ParseSize_stops_at_non_digit_witness :
  ParseSize (sv "12" ++ "x"%char :: sv "34") = ParseSize (sv "12").
Proof.
  apply ParseSize_stops_at_non_digit; [|reflexivity].
  repeat constructor.
Defined.

End parser_more.

Section parser_more_2.
Import Grammar.

Lemma decimal_fold_mod a b s :
  (a mod 2 ^ 64 = b mod 2 ^ 64)%N →
  (foldl decimal_step a s mod 2 ^ 64 = foldl decimal_step b s mod 2 ^ 64)%N.
Proof.
  revert a b. induction s as [|c s IH]; intros a b Hab; [done|].
  simpl. apply IH. unfold decimal_step.
  rewrite <-(N.Div0.add_mod_idemp_l (a * 10)), <-(N.Div0.add_mod_idemp_l (b * 10)).
  rewrite <-(N.Div0.mul_mod_idemp_l a), <-(N.Div0.mul_mod_idemp_l b).
  by rewrite Hab.
Qed.

Lemma ParseSize_from_wraps acc s :
  Forall (λ c, is_digit c = true) s →
  (acc < 2 ^ 64)%N →
  ParseSize_from acc s = (foldl decimal_step acc s mod 2 ^ 64)%N.
Proof.
  intros Hs. revert acc. induction Hs as [|c s Hc _ IH]; intros acc Hacc.
  - simpl. by rewrite N.mod_small.
  - cbn [ParseSize_from foldl]. cbv zeta.
    unfold is_digit in Hc.
    apply andb_true_iff in Hc as [H1%Nat.leb_le H2%Nat.leb_le].
    rewrite (proj2 (Nat.ltb_ge _ _) H1), (proj2 (Nat.ltb_ge _ _) H2).
    cbn [orb]. rewrite IH by (unfold size_t_wrap; by apply N.mod_lt).
    apply decimal_fold_mod. unfold size_t_wrap, decimal_step.
    rewrite N.Div0.mod_mod, N.Div0.add_mod_idemp_l. done.
Qed.

Lemma ParseSize_from_bound acc s :
  (acc < 2 ^ 64)%N → (ParseSize_from acc s < 2 ^ 64)%N.
Proof.
  revert acc. induction s as [|c s IH]; intros acc Hacc; [done|].
  cbn [ParseSize_from]. cbv zeta.
  destruct ((nat_of_ascii c <? 48) || (57 <? nat_of_ascii c)); [done|].
  apply IH. unfold size_t_wrap. by apply N.mod_lt.
Qed.

(** X5.  [ParseSize] never leaves [size_t]; on a string of digits it is the
    decimal value reduced modulo 2^64, so a count too large for [size_t]
    wraps around silently. *)
Theorem ParseSize_wraps (s : string_view) :
  (ParseSize s < 2 ^ 64)%N ∧
  (Forall (λ c, is_digit c = true) s →
   ParseSize s = (decimal_value s mod 2 ^ 64)%N).
Proof.
  split.
  - by apply ParseSize_from_bound.
  - intros Hs. by apply ParseSize_from_wraps.
Qed.

Lemma ParseSize_wraps_witness :
  ParseSize (sv "18446744073709551617") = 1%N.
Proof.
  rewrite (proj2 (ParseSize_wraps (sv "18446744073709551617"))).
  - reflexivity.
  - repeat constructor.
Defined.

Lemma tokens_from_no_sep cur s :
  Forall (λ c, is_sep c = false) cur →
  Forall (Forall (λ c, is_sep c = false)) (tokens_from cur s).
Proof.
  revert cur. induction s as [|c s IH]; intros cur Hcur; simpl.
  - destruct cur; [constructor|]. constructor; [done|constructor].
  - destruct (is_sep c) eqn:Hc.
    + destruct cur; [by apply IH|]. constructor; [done|]. by apply IH.
    + apply IH. apply Forall_app. split; [done|]. by repeat constructor.
Qed.

Lemma first_padded_no_sep n (names : list string_view) :
  Forall (Forall (λ c, is_sep c = false)) names →
  Forall (Forall (λ c, is_sep c = false)) (first_padded n names).
Proof.
  intros H. unfold first_padded. apply Forall_take, Forall_app.
  split; [done|]. apply Forall_replicate. constructor.
Qed.

Lemma ConsumeToken_token_no_sep s :
  Forall (λ c, is_sep c = false) (ConsumeToken s).1.
Proof.
  rewrite ConsumeToken_token. pose proof (tokens_from_no_sep [] s) as H.
  fold (tokens s) in H. destruct (tokens s); simpl; [constructor|].
  by apply Forall_cons in H as [? _]; [|constructor].
Qed.

Lemma collect_names_no_sep n token value :
  Forall (λ c, is_sep c = false) token →
  Forall (Forall (λ c, is_sep c = false)) (collect_names n token value).
Proof.
  intros Ht. rewrite collect_names_tokens. apply first_padded_no_sep.
  constructor; [done|]. apply tokens_from_no_sep. constructor.
Qed.

(** X6.  No name the parser returns holds a separator: no space, comma,
    parenthesis or double quote. *)
Theorem ParseSyncStandbyNames_no_separator (value name : string_view) :
  name ∈ ParseSyncStandbyNames value →
  Forall (λ c, is_sep c = false) name.
Proof.
  assert (Forall (Forall (λ c, is_sep c = false))
            (ParseSyncStandbyNames value)) as Hall.
  { unfold ParseSyncStandbyNames.
    pose proof (ConsumeToken_token_no_sep value) as H1.
    destruct (ConsumeToken value) as [t1 v1]. simpl in H1.
    destruct (StrIcaseEqual t1 kQuorumKeyword); [constructor|].
    destruct (negb (bool_decide (t1 = []))); [|constructor].
    assert (∀ t v, Forall (λ c, is_sep c = false) t →
              Forall (Forall (λ c, is_sep c = false))
                (let '(num_sync, token, value) :=
                   if bool_decide (is_Some (StringView.find "(" v))
                   then let '(token, value) := ConsumeToken v in
                        (ParseSize t, token, value)
                   else (1%N, t, v) in
                 collect_names (N.to_nat num_sync) token value)) as Hrest.
    { intros t v Ht. case_bool_decide.
      - pose proof (ConsumeToken_token_no_sep v) as H2.
        destruct (ConsumeToken v) as [t2 v2]. by apply collect_names_no_sep.
      - by apply collect_names_no_sep. }
    destruct (StrIcaseEqual t1 kMultiKeyword).
    - pose proof (ConsumeToken_token_no_sep v1) as H2.
      destruct (ConsumeToken v1) as [t2 v2]. by apply Hrest.
    - by apply Hrest. }
  rewrite Forall_forall in Hall. apply Hall.
Qed.

Lemma ParseSyncStandbyNames_no_separator_witness :
  Forall (λ c, is_sep c = false) (sv "host_b").
Proof.
  apply (ParseSyncStandbyNames_no_separator
           (sv "FIRST 2 (host_a, host_b, host_c)")).
  apply list_elem_of_In. vm_compute. auto.
Defined.

(** X7.  When the first token is FIRST and no open paren follows it, the
    keyword is dropped and the result is one entry: the token after the
    keyword, or the empty string when the keyword is the last token. *)
Theorem ParseSyncStandbyNames_first_without_paren value kw ts :
  tokens value = kw :: ts →
  StrIcaseEqual kw kMultiKeyword = true →
  has_open_paren (after_token value) = false →
  ParseSyncStandbyNames value = [hd [] ts].
Proof.
  intros Hs Hm Hp. unfold ParseSyncStandbyNames.
  rewrite (ConsumeToken_cons _ _ _ Hs), (StrIcaseEqual_multi_not_quorum _ Hm), Hm.
  rewrite (bool_decide_eq_false_2 _ (tokens_head_nonempty _ _ _ Hs)). simpl.
  pose proof (ConsumeToken_token (after_token value)) as Ht.
  pose proof (ConsumeToken_rest (after_token value)) as Hr.
  rewrite tokens_after_token, Hs in Ht, Hr. simpl in Ht, Hr.
  destruct (ConsumeToken (after_token value)) as [t2 v2]. simpl in Ht, Hr.
  subst t2. rewrite find_open_paren.
  assert (has_open_paren v2 = false) as ->.
  { subst v2. destruct ts; [done|]. by apply has_open_paren_after_token. }
  simpl. by destruct (ConsumeToken v2).
Qed.

Lemma ParseSyncStandbyNames_first_without_paren_witness :
  ParseSyncStandbyNames (sv "FIRST host_a, host_b") = [sv "host_a"] ∧
  ParseSyncStandbyNames (sv "first") = [sv ""].
Proof.
  split.
  - apply (ParseSyncStandbyNames_first_without_paren
             (sv "FIRST host_a, host_b") (sv "FIRST")
             [sv "host_a"; sv "host_b"]); reflexivity.
  - apply (ParseSyncStandbyNames_first_without_paren
             (sv "first") (sv "first") []); reflexivity.
Defined.

End parser_more_2.

(** ** More on the probe *)

Section probe_more.

(** X8.  The SHOW query is executed exactly when the probe gets a connection
    and the read-only check answers false; a replica is never asked for its
    [synchronous_standby_names]. *)
Theorem show_issued_iff_primary idx state env :
  existsb is_execute_event (res_events (RunCheck idx state env)) = true
  ↔ gets_connected state env = true ∧ env_check_read_only env = Returns false.
Proof.
  unfold RunCheck, RunCheck_connected, gets_connected.
  destruct state as [[c|] hp an ro rt ds],
    env as [[c'|e1] [[|]|e2] el [res|e3]]; simpl;
    (split; [intros ?|intros [? ?]]); done.
Qed.




End probe_more.

(** ** More on the discovery cycle *)

Section cycle_helpers.

Lemma RunCheck_names idx state env :
  app_name (res_state (RunCheck idx state env)) = app_name state ∧
  host_port (res_state (RunCheck idx state env)) = host_port state.
Proof.
  unfold RunCheck, RunCheck_connected.
  by destruct state as [[c|] hp an ro rt ds],
    env as [[c'|e1] [[|]|e2] el [res|e3]].
Qed.

Lemma RunCheck_master idx state env :
  role (res_state (RunCheck idx state env)) = kMaster →
  env_check_read_only env = Returns false ∧
  ∃ res, env_show_sync_standby_names env = Returns res ∧
         detected_sync_slaves (res_state (RunCheck idx state env))
         = ParseSyncStandbyNames res.
Proof.
  unfold RunCheck, RunCheck_connected.
  destruct state as [[c|] hp an ro rt ds],
    env as [[c'|e1] [[|]|e2] el [res|e3]]; simpl; intros ?; try done;
    (split; [done|by eexists]).
Qed.

Lemma attributed_fields alive names j s :
  connection (attributed alive names j s) = connection s ∧
  host_port (attributed alive names j s) = host_port s ∧
  app_name (attributed alive names j s) = app_name s ∧
  roundtrip_time (attributed alive names j s) = roundtrip_time s ∧
  detected_sync_slaves (attributed alive names j s) = detected_sync_slaves s ∧
  (role (attributed alive names j s) = role s ∨
   role (attributed alive names j s) = kSyncSlave ∧ j ∈ alive).
Proof.
  unfold attributed. destruct (bool_decide (j ∈ alive)) eqn:Hj; simpl.
  - apply bool_decide_eq_true in Hj.
    destruct (name_matches names s); simpl; repeat split; auto.
  - repeat split; auto.
Qed.

Lemma length_probed_states impl env :
  length (probed_states impl env) = length (host_states_ impl).
Proof.
  unfold probed_states, run_checks. by rewrite length_fmap, length_imap.
Qed.

Lemma length_attribute alive hs :
  length (attribute_sync_slaves alive hs) = length hs.
Proof. by rewrite attribute_sync_slaves_imap, length_imap. Qed.

Lemma join_tasks_inl_iff i tasks alive j e :
  join_tasks i tasks alive = inl (j, e) ↔
  ∃ k t, j = i + k ∧ tasks !! k = Some t ∧ res_thrown t = Some e ∧
         ∀ k' t', k' < k → tasks !! k' = Some t' → res_thrown t' = None.
Proof.
  revert i alive. induction tasks as [|t tasks IH]; intros i alive; simpl.
  - split; [done|]. by intros (k & t & _ & ? & _).
  - destruct (res_thrown t) as [e0|] eqn:Ht.
    + split.
      * intros [= <- <-]. exists 0, t. repeat split; [lia|done|]. lia.
      * intros ([|k] & t' & -> & Hk & He & Hlow).
        -- simplify_eq/=. by rewrite Nat.add_0_r.
        -- specialize (Hlow 0 t). simpl in Hlow.
           rewrite Hlow in Ht by (done || lia). done.
    + rewrite IH. split.
      * intros (k & t' & -> & Hk & He & Hlow). exists (S k), t'.
        repeat split; [lia|done|done|].
        intros [|k'] t'' Hlt Hk'; simplify_eq/=; [done|].
        apply (Hlow k' t''); [lia|done].
      * intros ([|k] & t' & -> & Hk & He & Hlow); simplify_eq/=.
        exists k, t'. repeat split; [lia|done|done|].
        intros k' t'' Hlt Hk'. apply (Hlow (S k') t''); [lia|done].
Qed.

End cycle_helpers.

Section cycle_more.
Context {S : StdSort} {HS : StdSortContract S}.

(** X11.  A host is published as alive exactly when no call of its probe
    threw. *)
Theorem alive_iff_probe_succeeded impl env impl' :
  RunDiscovery impl env = Published impl' →
  ∀ i, i ∈ alive_dsn_indices_ impl' ↔
       ∃ state, host_states_ impl !! i = Some state ∧
                probe_failure state (env i) = None.
Proof.
  intros ->%RunDiscovery_Published i.
  rewrite aggregate_alive_perm, elem_of_alive_from. simpl. split.
  - intros (k & s & -> & Hk & Hr). simpl.
    rewrite probed_states_lookup in Hk.
    destruct (host_states_ impl !! k) as [state|] eqn:Hs; [|done].
    simplify_eq/=. exists state. split; [done|].
    destruct (probe_failure state (env k)) eqn:Hf; [|done].
    destruct Hr. apply RunCheck_role_None. by rewrite Hf.
  - intros (state & Hs & Hf). exists i, (res_state (RunCheck i state (env i))).
    split; [done|]. split; [by rewrite probed_states_lookup, Hs|].
    rewrite RunCheck_role_None, Hf. by intros [? ?].
Qed.

(** X12.  A published cycle keeps the number of host states; the alive list
    holds no index twice and only indices below the number of hosts. *)
Theorem published_indices_in_range impl env impl' :
  RunDiscovery impl env = Published impl' →
  length (host_states_ impl') = length (host_states_ impl) ∧
  NoDup (alive_dsn_indices_ impl') ∧
  ∀ i, i ∈ alive_dsn_indices_ impl' → i < length (host_states_ impl).
Proof.
  intros ->%RunDiscovery_Published. split; [|split].
  - simpl. by rewrite length_attribute, length_probed_states.
  - rewrite aggregate_alive_perm. apply NoDup_alive_from.
  - intros i. rewrite aggregate_alive_perm, elem_of_alive_from.
    intros (k & s & -> & Hk & _). simpl.
    rewrite <-(length_probed_states impl env). by eapply lookup_lt_Some.
Qed.

End cycle_more.

Section cycle_more_any_sort.
Context {S : StdSort}.

(** X13.  A cycle never renames a host: the [app_name] and the [host_port] of
    every slot are those it started with. *)
Theorem cycle_keeps_names impl env impl' :
  RunDiscovery impl env = Published impl' →
  app_name <$> host_states_ impl' = app_name <$> host_states_ impl ∧
  host_port <$> host_states_ impl' = host_port <$> host_states_ impl.
Proof.
  intros ->%RunDiscovery_Published. simpl.
  split; apply list_eq; intros j;
    rewrite !list_lookup_fmap, attribute_sync_slaves_lookup,
      probed_states_lookup;
    (destruct (host_states_ impl !! j) as [state|]; [|done]); simpl; f_equal.
  - destruct (attributed_fields (alive_from 0 (probed_states impl env))
                (master_sync_names (probed_states impl env)) j
                (res_state (RunCheck j state (env j)))) as (_ & _ & -> & _).
    apply RunCheck_names.
  - destruct (attributed_fields (alive_from 0 (probed_states impl env))
                (master_sync_names (probed_states impl env)) j
                (res_state (RunCheck j state (env j)))) as (_ & -> & _).
    apply RunCheck_names.
Qed.

(** X14.  A cycle rethrows exactly when some probe lets an exception escape,
    and what it rethrows is the exception of the lowest such index. *)
Theorem rethrows_lowest_escaped impl env i e :
  RunDiscovery impl env = Rethrown i e ↔
  (∃ state, host_states_ impl !! i = Some state ∧
            res_thrown (RunCheck i state (env i)) = Some e) ∧
  (∀ k state, k < i → host_states_ impl !! k = Some state →
              res_thrown (RunCheck k state (env k)) = None).
Proof.
  unfold RunDiscovery.
  destruct (join_tasks 0 (run_checks env (host_states_ impl)) [])
    as [[j e']|alive] eqn:Hj.
  - apply join_tasks_inl_iff in Hj as (k & t & -> & Hk & He & Hlow).
    simpl. rewrite run_checks_lookup in Hk.
    destruct (host_states_ impl !! k) as [state|] eqn:Hs; [|done].
    simplify_eq/=. split.
    + intros [= <- <-]. split; [by exists state|].
      intros k' state' Hlt Hs'. apply (Hlow k'); [done|].
      by rewrite run_checks_lookup, Hs'.
    + intros [(state' & Hs' & He') Hlow'].
      destruct (Nat.lt_trichotomy i k) as [Hlt|[->|Hlt]].
      * rewrite (Hlow i (RunCheck i state' (env i))) in He'; [done..|].
        by rewrite run_checks_lookup, Hs'.
      * by simplify_eq.
      * by rewrite (Hlow' k state Hlt Hs) in He.
  - apply join_tasks_inr_inv in Hj. rewrite Forall_lookup in Hj.
    split; [done|]. intros [(state & Hs & He) _].
    rewrite (Hj i (RunCheck i state (env i))) in He; [done|].
    by rewrite run_checks_lookup, Hs.
Qed.

End cycle_more_any_sort.

Section promotion_helpers.

Lemma probed_never_sync_slave impl env :
  Forall (λ s, role s ≠ kSyncSlave) (probed_states impl env).
Proof.
  apply Forall_lookup. intros i s. rewrite probed_states_lookup.
  destruct (host_states_ impl !! i); [|done]. intros [= <-].
  apply RunCheck_role.
Qed.

Lemma attribute_without_names alive hs :
  master_sync_names hs = [] → attribute_sync_slaves alive hs = hs.
Proof.
  intros Hn. apply list_eq. intros j.
  rewrite attribute_sync_slaves_lookup, Hn.
  destruct (hs !! j); [|done]. simpl. by rewrite attributed_nil_names.
Qed.

Lemma filter_none {A} (P : A → Prop) `{∀ x, Decision (P x)} (l : list A) :
  (∀ x, x ∈ l → ¬ P x) → filter P l = [].
Proof.
  induction l as [|x l IH]; intros Hl; [done|].
  rewrite filter_cons, decide_False by (apply Hl; by left).
  apply IH. intros y Hy. apply Hl. by right.
Qed.

Lemma filter_all {A} (P : A → Prop) `{∀ x, Decision (P x)} (l : list A) :
  (∀ x, x ∈ l → P x) → filter P l = l.
Proof.
  induction l as [|x l IH]; intros Hl; [done|].
  rewrite filter_cons, decide_True by (apply Hl; by left).
  f_equal. apply IH. intros y Hy. apply Hl. by right.
Qed.

Lemma bucket_sync_slave_empty hs l :
  Forall (λ s, role s ≠ kSyncSlave) hs →
  filter (in_bucket hs kSyncSlave) l = [].
Proof.
  intros Hhs. apply filter_none. intros j _ [Hr|[? _]]; [|done].
  unfold role_at in Hr. destruct (hs !! j) as [s|] eqn:Hj; [|done].
  rewrite Forall_lookup in Hhs. by apply (Hhs j s).
Qed.

Lemma master_sync_names_no_master hs :
  Forall (λ s, role s ≠ kMaster) hs → master_sync_names hs = [].
Proof.
  intros Hhs. unfold master_sync_names, find_master.
  by rewrite (proj2 (list_find_None _ hs) Hhs).
Qed.

End promotion_helpers.

Section no_promotion.
Context {S : StdSort}.

(** X15.  When every primary reports the quorum form, a value whose first
    token is ANY, the cycle promotes nobody: the host states are those the
    probes left and the [kSyncSlave] bucket is empty. *)
Theorem quorum_commit_promotes_nobody impl env impl' :
  RunDiscovery impl env = Published impl' →
  (∀ i res, env_check_read_only (env i) = Returns false →
            env_show_sync_standby_names (env i) = Returns res →
            ∃ t ts, Grammar.tokens res = t :: ts ∧
                    StrIcaseEqual t kQuorumKeyword = true) →
  host_states_ impl' = probed_states impl env ∧
  bucket (dsn_indices_by_type_ impl') kSyncSlave = [].
Proof.
  intros ->%RunDiscovery_Published Hany.
  assert (master_sync_names (probed_states impl env) = []) as Hn.
  { unfold master_sync_names.
    destruct (find_master (probed_states impl env)) as [[m master]|] eqn:Hm;
      [|done].
    apply list_find_Some in Hm as (Hm & Hr & _).
    rewrite probed_states_lookup in Hm.
    destruct (host_states_ impl !! m) as [state|]; [|done]. simplify_eq/=.
    apply RunCheck_master in Hr as (Hro & res & Hres & ->).
    destruct (Hany m res Hro Hres) as (t & ts & Ht & Hq).
    by apply (parse_quorum res t ts). }
  assert (host_states_ (aggregate (probed_states impl env)
                          (alive_from 0 (probed_states impl env)))
          = probed_states impl env) as Hhs
    by by apply attribute_without_names.
  split; [done|]. rewrite aggregate_bucket, Hhs.
  apply bucket_sync_slave_empty, probed_never_sync_slave.
Qed.

End no_promotion.

Section buckets_more.
Context {S : StdSort} {HS : StdSortContract S}.

Lemma published_role_of_alive impl env j :
  j ∈ alive_dsn_indices_ (cycle_views impl env) →
  role_at (host_states_ (cycle_views impl env)) j = kMaster ∨
  role_at (host_states_ (cycle_views impl env)) j = kSlave ∨
  role_at (host_states_ (cycle_views impl env)) j = kSyncSlave.
Proof.
  unfold cycle_views. rewrite aggregate_alive_perm. intros Hj.
  assert (role_at (host_states_
                     (aggregate (probed_states impl env)
                        (alive_from 0 (probed_states impl env)))) j ≠ kNone)
    as Hr by (by apply elem_of_alive_role_at; rewrite aggregate_alive_from).
  destruct (role_at _ j); [done|auto..].
Qed.

(** X16.  When no host answers the read-only check with false, there is no
    primary and nobody is promoted: the [kMaster] and [kSyncSlave] buckets
    are empty and the [kSlave] bucket is the whole alive list. *)
Theorem replicas_only_cycle impl env impl' :
  RunDiscovery impl env = Published impl' →
  (∀ i, env_check_read_only (env i) ≠ Returns false) →
  host_states_ impl' = probed_states impl env ∧
  bucket (dsn_indices_by_type_ impl') kMaster = [] ∧
  bucket (dsn_indices_by_type_ impl') kSyncSlave = [] ∧
  bucket (dsn_indices_by_type_ impl') kSlave = alive_dsn_indices_ impl'.
Proof.
  intros ->%RunDiscovery_Published Hro.
  assert (Forall (λ s, role s ≠ kMaster) (probed_states impl env)) as Hnm.
  { apply Forall_lookup. intros i s. rewrite probed_states_lookup.
    destruct (host_states_ impl !! i) as [state|]; [|done]. intros [= <-].
    intros [Hc _]%RunCheck_master. by apply (Hro i). }
  assert (host_states_ (aggregate (probed_states impl env)
                          (alive_from 0 (probed_states impl env)))
          = probed_states impl env) as Hhs
    by by apply attribute_without_names, master_sync_names_no_master.
  split; [done|]. rewrite !aggregate_bucket.
  assert (Forall (λ s, role s ≠ kSyncSlave) (probed_states impl env)) as Hns
    by apply probed_never_sync_slave.
  split; [|split].
  - apply filter_none. intros j _ [Hr|[? _]]; [|done].
    rewrite Hhs in Hr. unfold role_at in Hr.
    destruct (probed_states impl env !! j) as [s|] eqn:Hj; [|done].
    rewrite Forall_lookup in Hnm. by apply (Hnm j s).
  - rewrite Hhs. by apply bucket_sync_slave_empty.
  - apply filter_all. intros j Hj. left.
    destruct (published_role_of_alive impl env j Hj) as [Hr|[Hr|Hr]];
      [|done|]; exfalso; unfold cycle_views in Hr;
      rewrite Hhs in Hr; unfold role_at in Hr;
      (destruct (probed_states impl env !! j) as [s|] eqn:Hjs; [|done]).
    + rewrite Forall_lookup in Hnm. by apply (Hnm j s).
    + rewrite Forall_lookup in Hns. by apply (Hns j s).
Qed.

Lemma sublist_filter_impl {A} (P Q : A → Prop)
    `{∀ x, Decision (P x)} `{∀ x, Decision (Q x)} (l : list A) :
  (∀ x, P x → Q x) → filter P l `sublist_of` filter Q l.
Proof.
  intros HPQ. induction l as [|x l IH]; [done|].
  rewrite !filter_cons. destruct (decide (P x)) as [HP|HP].
  - rewrite decide_True by auto. by apply sublist_skip.
  - destruct (decide (Q x)); [by apply sublist_cons|done].
Qed.

Lemma filter_complement_ext {A} (P Q : A → Prop)
    `{∀ x, Decision (P x)} `{∀ x, Decision (Q x)} (l : list A) :
  (∀ x, x ∈ l → (Q x ↔ ¬ P x)) → filter P l ++ filter Q l ≡ₚ l.
Proof.
  induction l as [|x l IH]; intros Hl; [done|].
  rewrite !filter_cons.
  assert (filter P l ++ filter Q l ≡ₚ l) as IH'.
  { apply IH. intros y Hy. apply Hl. by right. }
  destruct (decide (P x)) as [HP|HP].
  - rewrite decide_False by (rewrite Hl by (by left); tauto).
    simpl. by rewrite IH'.
  - rewrite decide_True by (rewrite Hl by (by left); tauto).
    by rewrite <-Permutation_middle, IH'.
Qed.

(** X17.  The published mapping files every alive index: the [kMaster] and
    [kSlave] buckets together are a rearrangement of the alive list, the
    [kSyncSlave] bucket is a part of the [kSlave] bucket in the same order,
    and no index is filed under [kNone]. *)
Theorem buckets_cover_alive impl env impl' :
  RunDiscovery impl env = Published impl' →
  bucket (dsn_indices_by_type_ impl') kMaster
    ++ bucket (dsn_indices_by_type_ impl') kSlave
    ≡ₚ alive_dsn_indices_ impl' ∧
  bucket (dsn_indices_by_type_ impl') kSyncSlave
    `sublist_of` bucket (dsn_indices_by_type_ impl') kSlave ∧
  bucket (dsn_indices_by_type_ impl') kNone = [].
Proof.
  intros ->%RunDiscovery_Published. rewrite !aggregate_bucket.
  split; [|split].
  - apply filter_complement_ext. intros j Hj. unfold in_bucket.
    destruct (published_role_of_alive impl env j Hj) as [Hr|[Hr|Hr]];
      unfold cycle_views in Hr; rewrite Hr; split; intros;
      intuition congruence.
  - apply sublist_filter_impl. unfold in_bucket.
    intros j [Hr|[? _]]; [|done]. by right.
  - apply filter_none. intros j Hj. unfold in_bucket.
    destruct (published_role_of_alive impl env j Hj) as [Hr|[Hr|Hr]];
      unfold cycle_views in Hr; rewrite Hr; intros [?|[? _]]; done.
Qed.

End buckets_more.

Section repeated_cycle.
Context {S : StdSort}.

Lemma set_role_same s : set_role (role s) s = s.
Proof. by destruct s. Qed.

(** Probing again with the same answers, whatever role the slot was given in
    between, leaves the same state. *)
Lemma RunCheck_again idx state env r :
  res_state (RunCheck idx (set_role r (res_state (RunCheck idx state env))) env)
  = res_state (RunCheck idx state env).
Proof.
  unfold RunCheck, RunCheck_connected.
  by destruct state as [[c|] hp an ro rt ds],
    env as [[c'|e1] [[|]|e2] el [res|e3]].
Qed.

Lemma RunCheck_again_attributed idx state env alive names :
  res_state (RunCheck idx
               (attributed alive names idx (res_state (RunCheck idx state env)))
               env)
  = res_state (RunCheck idx state env).
Proof.
  unfold attributed. destruct (_ && _); [apply RunCheck_again|].
  rewrite <-(set_role_same (res_state (RunCheck idx state env))) at 1.
  apply RunCheck_again.
Qed.

(** X18.  A second cycle against the same answers changes nothing: the
    probes leave the same states, and if the cycle publishes, it publishes
    the same host states and the same two views. *)
Theorem second_cycle_publishes_the_same impl env impl1 :
  RunDiscovery impl env = Published impl1 →
  probed_states impl1 env = probed_states impl env ∧
  ∀ impl2, RunDiscovery impl1 env = Published impl2 → impl2 = impl1.
Proof.
  intros ->%RunDiscovery_Published.
  assert (probed_states
            (aggregate (probed_states impl env)
               (alive_from 0 (probed_states impl env))) env
          = probed_states impl env) as Hsame.
  { apply list_eq. intros i. rewrite probed_states_lookup. simpl.
    rewrite attribute_sync_slaves_lookup, probed_states_lookup.
    destruct (host_states_ impl !! i) as [state|]; [|done]. simpl. f_equal.
    apply RunCheck_again_attributed. }
  split; [done|]. intros impl2 ->%RunDiscovery_Published.
  by rewrite Hsame.
Qed.

End repeated_cycle.

Section sort_independence.

(** X19.  With pairwise different round-trip times among the alive hosts the
    outcome of a cycle does not depend on the sorting routine: any two
    routines that meet the contract of [std::sort] publish the same host
    states and the same views. *)
Theorem order_fixed_without_ties (S1 S2 : StdSort)
    (HS1 : StdSortContract S1) (HS2 : StdSortContract S2)
    impl env impl1 impl2 :
  @RunDiscovery S1 impl env = Published impl1 →
  @RunDiscovery S2 impl env = Published impl2 →
  (∀ a b, a ∈ alive_dsn_indices_ impl1 → b ∈ alive_dsn_indices_ impl1 →
          rtt_at (host_states_ impl1) a = rtt_at (host_states_ impl1) b →
          a = b) →
  impl1 = impl2.
Proof.
  intros ->%RunDiscovery_Published ->%RunDiscovery_Published Hties.
  unfold aggregate in *. simpl in Hties.
  set (hs := attribute_sync_slaves (alive_from 0 (probed_states impl env))
               (probed_states impl env)) in *.
  assert (@std_sort S1 _ (rtt_less hs) (alive_from 0 (probed_states impl env))
          = @std_sort S2 _ (rtt_less hs) (alive_from 0 (probed_states impl env)))
    as Heq.
  { apply (StronglySorted_unique_strong (λ a b, rtt_less hs b a = false)).
    - intros a b Ha Hb Hab Hba.
      rewrite std_sort_permutation in Hb by apply rtt_less_strict_weak_order.
      rewrite <-(std_sort_permutation (S := S1) _ (rtt_less hs)) in Hb
        by apply rtt_less_strict_weak_order.
      apply (Hties a b Ha Hb).
      unfold rtt_less in Hab, Hba.
      apply bool_decide_eq_false in Hab, Hba. lia.
    - apply std_sort_sorted, rtt_less_strict_weak_order.
    - apply std_sort_sorted, rtt_less_strict_weak_order.
    - rewrite !std_sort_permutation by apply rtt_less_strict_weak_order.
      done. }
  by rewrite Heq.
Qed.

End sort_independence.

Section attribution_more.

(** X20.  The attribution pass touches roles only: it keeps the number of
    slots and, in every slot, the connection, the names, the round-trip time
    and the detected names; a role either stays or becomes [kSyncSlave], the
    latter for alive indices only. *)
Theorem attribution_changes_roles_only alive hs :
  length (attribute_sync_slaves alive hs) = length hs ∧
  ∀ j s, hs !! j = Some s →
    ∃ s', attribute_sync_slaves alive hs !! j = Some s' ∧
          connection s' = connection s ∧
          host_port s' = host_port s ∧
          app_name s' = app_name s ∧
          roundtrip_time s' = roundtrip_time s ∧
          detected_sync_slaves s' = detected_sync_slaves s ∧
          (role s' = role s ∨ role s' = kSyncSlave ∧ j ∈ alive).
Proof.
  split; [apply length_attribute|]. intros j s Hj.
  rewrite attribute_sync_slaves_lookup, Hj. simpl. eexists. split; [done|].
  apply attributed_fields.
Qed.

End attribution_more.

(** ** The further properties on concrete clusters *)

Section more_instances.

Lemma alive_iff_probe_succeeded_witness :
  2 ∈ alive_dsn_indices_ scenario_S6_views.
Proof.
  apply (proj2 (alive_iff_probe_succeeded (HS := StableStdSort_contract)
                  scenario_S6_impl scenario_S6_env scenario_S6_views
                  eq_refl 2)).
  eexists. split; reflexivity.
Defined.

Lemma published_indices_in_range_witness :
  length (host_states_ scenario_S6_views)
    = length (host_states_ scenario_S6_impl) ∧
  NoDup (alive_dsn_indices_ scenario_S6_views) ∧
  ∀ i, i ∈ alive_dsn_indices_ scenario_S6_views →
       i < length (host_states_ scenario_S6_impl).
Proof.
  exact (published_indices_in_range (HS := StableStdSort_contract)
           scenario_S6_impl scenario_S6_env scenario_S6_views eq_refl).
Defined.

Lemma cycle_keeps_names_witness :
  app_name <$> host_states_ scenario_S6_views
    = app_name <$> host_states_ scenario_S6_impl ∧
  host_port <$> host_states_ scenario_S6_views
    = host_port <$> host_states_ scenario_S6_impl.
Proof.
  exact (cycle_keeps_names (S := StableStdSort)
           scenario_S6_impl scenario_S6_env scenario_S6_views eq_refl).
Defined.

Lemma quorum_commit_promotes_nobody_witness :
  host_states_ (@cycle_views StableStdSort scenario_S6_impl quorum_env)
    = probed_states scenario_S6_impl quorum_env ∧
  bucket (dsn_indices_by_type_
            (@cycle_views StableStdSort scenario_S6_impl quorum_env))
    kSyncSlave = [].
Proof.
  apply (quorum_commit_promotes_nobody (S := StableStdSort)
           scenario_S6_impl quorum_env _ eq_refl).
  intros [|[|[|i]]] res Hro Hres; simplify_eq/=.
  exists (sv "ANY"), [sv "1"; sv "r1"; sv "r2"]. split; reflexivity.
Defined.

Lemma replicas_only_cycle_witness :
  host_states_ (@cycle_views StableStdSort scenario_S6_impl replicas_env)
    = probed_states scenario_S6_impl replicas_env ∧
  bucket (dsn_indices_by_type_
            (@cycle_views StableStdSort scenario_S6_impl replicas_env))
    kMaster = [] ∧
  bucket (dsn_indices_by_type_
            (@cycle_views StableStdSort scenario_S6_impl replicas_env))
    kSyncSlave = [] ∧
  bucket (dsn_indices_by_type_
            (@cycle_views StableStdSort scenario_S6_impl replicas_env))
    kSlave
  = alive_dsn_indices_
      (@cycle_views StableStdSort scenario_S6_impl replicas_env).
Proof.
  apply (replicas_only_cycle (HS := StableStdSort_contract)
           scenario_S6_impl replicas_env _ eq_refl).
  intros [|[|[|i]]]; done.
Defined.

Lemma buckets_cover_alive_witness :
  bucket (dsn_indices_by_type_ scenario_S6_views) kMaster
    ++ bucket (dsn_indices_by_type_ scenario_S6_views) kSlave
    ≡ₚ alive_dsn_indices_ scenario_S6_views ∧
  bucket (dsn_indices_by_type_ scenario_S6_views) kSyncSlave
    `sublist_of` bucket (dsn_indices_by_type_ scenario_S6_views) kSlave ∧
  bucket (dsn_indices_by_type_ scenario_S6_views) kNone = [].
Proof.
  exact (buckets_cover_alive (HS := StableStdSort_contract)
           scenario_S6_impl scenario_S6_env scenario_S6_views eq_refl).
Defined.

Lemma second_cycle_publishes_the_same_witness :
  @RunDiscovery StableStdSort scenario_S6_views scenario_S6_env
  = Published scenario_S6_views.
Proof.
  destruct (second_cycle_publishes_the_same (S := StableStdSort)
              scenario_S6_impl scenario_S6_env scenario_S6_views eq_refl)
    as [_ Hsame].
  assert (∃ impl2, @RunDiscovery StableStdSort scenario_S6_views
                     scenario_S6_env = Published impl2) as [impl2 H2]
    by (eexists; reflexivity).
  by rewrite H2, (Hsame impl2 H2).
Defined.

Lemma order_fixed_without_ties_witness :
  scenario_S6_views
  = @cycle_views UnstableStdSort scenario_S6_impl scenario_S6_env.
Proof.
  apply (order_fixed_without_ties StableStdSort UnstableStdSort
           StableStdSort_contract UnstableStdSort_contract
           scenario_S6_impl scenario_S6_env _ _ eq_refl eq_refl).
  intros a b Ha%list_elem_of_In Hb%list_elem_of_In.
  vm_compute in Ha, Hb.
  destruct Ha as [<-|[<-|[<-|[]]]], Hb as [<-|[<-|[<-|[]]]];
    intros H; vm_compute in H; congruence.
Defined.

End more_instances.


Section promotion_more.
Context {S : StdSort}.

(** X21.  After a published cycle a host carries [kSyncSlave] exactly when
    its probe succeeded and its [app_name] matches, case-insensitively, one
    of the names detected by the primary of lowest index; without a primary
    there is no such name. *)
Theorem sync_slave_exactly_when_named impl env impl' i :
  RunDiscovery impl env = Published impl' →
  role_at (host_states_ impl') i = kSyncSlave ↔
  ∃ s name,
    probed_states impl env !! i = Some s ∧
    role s ≠ kNone ∧
    name ∈ master_sync_names (probed_states impl env) ∧
    StrIcaseEqual (app_name s) name = true.
Proof.
  intros Hpub. rewrite (sync_slave_iff impl env impl' i Hpub).
  unfold name_matches. split.
  - intros (s & Hs & Hr & (name & Hin & Hm)%existsb_exists).
    exists s, name. by rewrite list_elem_of_In.
  - intros (s & name & Hs & Hr & Hin & Hm). exists s.
    split; [done|]. split; [done|]. apply existsb_exists.
    exists name. by rewrite <-list_elem_of_In.
Qed.

End promotion_more.

Section promotion_instances.

Lemma sync_slave_exactly_when_named_witness :
  role_at (host_states_ scenario_S6_views) 1 = kSyncSlave.
Proof.
  apply (proj2 (sync_slave_exactly_when_named (S := StableStdSort)
                  scenario_S6_impl scenario_S6_env scenario_S6_views 1
                  eq_refl)).
  exists (res_state (RunCheck 1 (HostState_new (sv "r1")) (env_slave 5000))),
    (sv "r1").
  split; [reflexivity|]. split; [done|]. split; [|reflexivity].
  apply list_elem_of_In. vm_compute. auto.
Defined.

End promotion_instances.

(** ** The bounded forms and the limits of the count *)

Section parser_vec.
Import Grammar.

(** The loop on the vector returns what the loop of the parser collects
    when the vector can hold it, and throws otherwise. *)
Lemma collect_names_vec_spec capacity n names token value :
  (N.of_nat (length names) ≤ capacity)%N →
  collect_names_vec capacity n names token value =
    if (N.of_nat (length names + n) <=? capacity)%N
    then Returns (names ++ collect_names n token value)
    else Throws OtherException.
Proof.
  revert names token value.
  induction n as [|n IH]; intros names token value Hlen; simpl.
  - rewrite Nat.add_0_r, (proj2 (N.leb_le _ _) Hlen). by rewrite app_nil_r.
  - destruct (N.ltb_spec (N.of_nat (length names)) capacity) as [Hlt|Hge].
    + destruct (ConsumeToken value) as [token' value'].
      rewrite IH by (rewrite length_app; simpl; lia).
      rewrite length_app, <-app_assoc. simpl.
      by replace (length names + 1 + n) with (length names + S n) by lia.
    + by rewrite (proj2 (N.leb_gt _ _)) by lia.
Qed.

Lemma length_collect_names n token value :
  length (collect_names n token value) = n.
Proof.
  revert token value. induction n as [|n IH]; intros token value; simpl.
  - done.
  - destruct (ConsumeToken value) as [token' value']. simpl. by rewrite IH.
Qed.

(** The parser on a limited vector returns what [ParseSyncStandbyNames]
    returns when the vector can hold it, and throws otherwise. *)
Lemma ParseSyncStandbyNames_vec_spec capacity value :
  ParseSyncStandbyNames_vec capacity value =
    if (N.of_nat (length (ParseSyncStandbyNames value)) <=? capacity)%N
    then Returns (ParseSyncStandbyNames value)
    else Throws OtherException.
Proof.
  assert (∀ n t v,
    collect_names_vec capacity n [] t v =
      if (N.of_nat (length (collect_names n t v)) <=? capacity)%N
      then Returns (collect_names n t v)
      else Throws OtherException) as Hloop.
  { intros n t v. rewrite collect_names_vec_spec by (cbn [length]; lia).
    cbn [length app]. by rewrite Nat.add_0_l, length_collect_names. }
  unfold ParseSyncStandbyNames_vec, ParseSyncStandbyNames.
  destruct (ConsumeToken value) as [token value'].
  destruct (StrIcaseEqual token kQuorumKeyword); [apply Hloop|].
  destruct (negb (bool_decide (token = []))); [|apply Hloop].
  destruct (StrIcaseEqual token kMultiKeyword).
  - destruct (ConsumeToken value') as [token' value''].
    destruct (bool_decide (is_Some (StringView.find "(" value'')));
      [destruct (ConsumeToken value'')|]; apply Hloop.
  - destruct (bool_decide (is_Some (StringView.find "(" value')));
      [destruct (ConsumeToken value')|]; apply Hloop.
Qed.

Lemma parse_vec_bounded_first capacity value kw c names :
  tokens value = kw :: c :: names →
  StrIcaseEqual kw kMultiKeyword = true →
  has_open_paren (after_token (after_token value)) = true →
  ParseSyncStandbyNames_vec capacity value =
    if (ParseSize c <=? capacity)%N
    then Returns (first_padded (N.to_nat (ParseSize c)) names)
    else Throws OtherException.
Proof.
  intros Hs Hm Hp. unfold ParseSyncStandbyNames_vec.
  rewrite (ConsumeToken_cons _ _ _ Hs), (StrIcaseEqual_multi_not_quorum _ Hm), Hm.
  rewrite (bool_decide_eq_false_2 _ (tokens_head_nonempty _ _ _ Hs)).
  cbn [negb].
  assert (tokens (after_token value) = c :: names) as Hs'
    by by rewrite tokens_after_token, Hs.
  rewrite (ConsumeToken_cons _ _ _ Hs'), find_open_paren, Hp.
  pose proof (collect_after_ConsumeToken
                (N.to_nat (ParseSize c)) (after_token (after_token value))) as Hc.
  rewrite tokens_after_token, Hs' in Hc. cbn [tail] in Hc.
  destruct (ConsumeToken (after_token (after_token value))) as [t v].
  cbn [fst snd] in Hc.
  rewrite collect_names_vec_spec by (cbn [length]; lia).
  cbn [length app]. by rewrite Nat.add_0_l, N2Nat.id, Hc.
Qed.

Lemma parse_vec_bounded_implicit capacity value c names :
  tokens value = c :: names →
  StrIcaseEqual c kQuorumKeyword = false →
  StrIcaseEqual c kMultiKeyword = false →
  has_open_paren (after_token value) = true →
  ParseSyncStandbyNames_vec capacity value =
    if (ParseSize c <=? capacity)%N
    then Returns (first_padded (N.to_nat (ParseSize c)) names)
    else Throws OtherException.
Proof.
  intros Hs Hq Hm Hp. unfold ParseSyncStandbyNames_vec.
  rewrite (ConsumeToken_cons _ _ _ Hs), Hq, Hm.
  rewrite (bool_decide_eq_false_2 _ (tokens_head_nonempty _ _ _ Hs)).
  cbn [negb]. rewrite find_open_paren, Hp.
  pose proof (collect_after_ConsumeToken
                (N.to_nat (ParseSize c)) (after_token value)) as Hc.
  rewrite tokens_after_token, Hs in Hc. cbn [tail] in Hc.
  destruct (ConsumeToken (after_token value)) as [t v].
  cbn [fst snd] in Hc.
  rewrite collect_names_vec_spec by (cbn [length]; lia).
  cbn [length app]. by rewrite Nat.add_0_l, N2Nat.id, Hc.
Qed.

(** C9 (as amended).  In the bounded forms, [FIRST n ( names )] and
    [n ( names )], with a count [n] written in digits that fits [size_t]: when
    the result vector can hold [n] entries the parser returns exactly [n]
    entries, the first [n] names followed by empty strings where fewer than
    [n] names are left; when it cannot, the parser throws. *)
Theorem ParseSyncStandbyNames_bounded_count (capacity : N)
    (value : string_view) :
  (∀ kw c names,
     tokens value = kw :: c :: names →
     StrIcaseEqual kw kMultiKeyword = true →
     has_open_paren (after_token (after_token value)) = true →
     Forall (λ d, is_digit d = true) c →
     (decimal_value c < 2 ^ 64)%N →
     let n := N.to_nat (decimal_value c) in
     ((decimal_value c ≤ capacity)%N →
      ParseSyncStandbyNames_vec capacity value
        = Returns (take n names ++ replicate (n - length names) []) ∧
      length (take n names ++ replicate (n - length names) ([] : string_view))
        = n) ∧
     ((capacity < decimal_value c)%N →
      ParseSyncStandbyNames_vec capacity value = Throws OtherException)) ∧
  (∀ c names,
     tokens value = c :: names →
     StrIcaseEqual c kQuorumKeyword = false →
     StrIcaseEqual c kMultiKeyword = false →
     has_open_paren (after_token value) = true →
     Forall (λ d, is_digit d = true) c →
     (decimal_value c < 2 ^ 64)%N →
     let n := N.to_nat (decimal_value c) in
     ((decimal_value c ≤ capacity)%N →
      ParseSyncStandbyNames_vec capacity value
        = Returns (take n names ++ replicate (n - length names) []) ∧
      length (take n names ++ replicate (n - length names) ([] : string_view))
        = n) ∧
     ((capacity < decimal_value c)%N →
      ParseSyncStandbyNames_vec capacity value = Throws OtherException)).
Proof.
  assert (∀ c names,
    Forall (λ d, is_digit d = true) c →
    (decimal_value c < 2 ^ 64)%N →
    ((decimal_value c ≤ capacity)%N →
     (if (ParseSize c <=? capacity)%N
      then Returns (first_padded (N.to_nat (ParseSize c)) names)
      else Throws OtherException)
     = Returns (take (N.to_nat (decimal_value c)) names
                ++ replicate (N.to_nat (decimal_value c) - length names) []) ∧
     length (take (N.to_nat (decimal_value c)) names
             ++ replicate (N.to_nat (decimal_value c) - length names)
                  ([] : string_view))
     = N.to_nat (decimal_value c)) ∧
    ((capacity < decimal_value c)%N →
     (if (ParseSize c <=? capacity)%N
      then Returns (first_padded (N.to_nat (ParseSize c)) names)
      else Throws OtherException)
     = Throws OtherException)) as Hcount.
  { intros c names Hd Hfit. rewrite (ParseSize_decimal c Hd Hfit). split.
    - intros Hle. rewrite (proj2 (N.leb_le _ _) Hle), first_padded_split.
      split; [done|]. rewrite <-first_padded_split. apply length_first_padded.
    - intros Hgt. by rewrite (proj2 (N.leb_gt _ _) Hgt). }
  split.
  - intros kw c names Hs Hm Hp Hd Hfit n.
    rewrite (parse_vec_bounded_first capacity _ _ _ _ Hs Hm Hp).
    by apply Hcount.
  - intros c names Hs Hq Hm Hp Hd Hfit n.
    rewrite (parse_vec_bounded_implicit capacity _ _ _ Hs Hq Hm Hp).
    by apply Hcount.
Qed.

Lemma ParseSyncStandbyNames_bounded_count_witness :
  ParseSyncStandbyNames_vec kVectorMaxSize (sv "FIRST 3 (host_a, host_b)")
    = Returns [sv "host_a"; sv "host_b"; sv ""] ∧
  ParseSyncStandbyNames_vec 2 (sv "3 (host_a, host_b)")
    = Throws OtherException.
Proof.
  split.
  - apply (proj1 (ParseSyncStandbyNames_bounded_count kVectorMaxSize
                    (sv "FIRST 3 (host_a, host_b)"))
             (sv "FIRST") (sv "3") [sv "host_a"; sv "host_b"]);
      try reflexivity; [repeat constructor|done].
  - apply (proj2 (ParseSyncStandbyNames_bounded_count 2
                    (sv "3 (host_a, host_b)"))
             (sv "3") [sv "host_a"; sv "host_b"]);
      try reflexivity; repeat constructor.
Defined.

(** C9 as it is worded fails twice.  A count of 2^64 + 1 wraps around in
    [size_t]: the parser returns one name.  And for a count of 2^64 - 1 no
    vector is large enough: the parser throws instead of returning. *)
Lemma ParseSyncStandbyNames_bounded_count_counterexample :
  (tokens (sv "18446744073709551617 (a, b)")
     = [sv "18446744073709551617"; sv "a"; sv "b"] ∧
   has_open_paren (after_token (sv "18446744073709551617 (a, b)")) = true ∧
   decimal_value (sv "18446744073709551617") = 18446744073709551617%N ∧
   ParseSyncStandbyNames_vec kVectorMaxSize (sv "18446744073709551617 (a, b)")
     = Returns [sv "a"]) ∧
  (tokens (sv "FIRST 18446744073709551615 (a)")
     = [sv "FIRST"; sv "18446744073709551615"; sv "a"] ∧
   has_open_paren
     (after_token (after_token (sv "FIRST 18446744073709551615 (a)"))) = true ∧
   decimal_value (sv "18446744073709551615") = 18446744073709551615%N ∧
   ParseSyncStandbyNames_vec kVectorMaxSize
     (sv "FIRST 18446744073709551615 (a)") = Throws OtherException).
Proof.
  split.
  - repeat split; vm_compute; reflexivity.
  - split; [reflexivity|]. split; [reflexivity|]. split; [reflexivity|].
    rewrite (parse_vec_bounded_first kVectorMaxSize _ (sv "FIRST")
               (sv "18446744073709551615") [sv "a"]) by reflexivity.
    assert ((ParseSize (sv "18446744073709551615") <=? kVectorMaxSize)%N
            = false) as -> by (vm_compute; reflexivity).
    reflexivity.
Qed.

End parser_vec.

(** ** Hosts of equal round-trip time under the library's sort *)

Section equal_rtt.

(** C2 as it is worded fails with the sorting routine of GNU libstdc++:
    seventeen replicas of equal round-trip time, alive in index order, are
    published in an order that is not ascending. *)
Lemma alive_sorted_by_rtt_counterexample :
  ∃ impl',
    @RunDiscovery LibstdcxxStdSort equal_rtt_impl equal_rtt_env
      = Published impl' ∧
    alive_from 0 (host_states_ impl') = seq 0 17 ∧
    Forall (λ i, rtt_at (host_states_ impl') i = 1000%Z) (seq 0 17) ∧
    alive_dsn_indices_ impl'
      = [8; 16; 15; 14; 13; 12; 11; 10; 9; 0; 7; 6; 5; 4; 3; 2; 1] ∧
    ¬ StronglySorted lt (alive_dsn_indices_ impl').
Proof.
  exists (@cycle_views LibstdcxxStdSort equal_rtt_impl equal_rtt_env).
  assert (alive_dsn_indices_
            (@cycle_views LibstdcxxStdSort equal_rtt_impl equal_rtt_env)
          = [8; 16; 15; 14; 13; 12; 11; 10; 9; 0; 7; 6; 5; 4; 3; 2; 1])
    as Halive by (vm_compute; reflexivity).
  split; [vm_compute; reflexivity|].
  split; [vm_compute; reflexivity|].
  split; [vm_compute; repeat constructor|].
  split; [exact Halive|].
  rewrite Halive. intros [H _]%StronglySorted_cons.
  apply Forall_cons in H as [_ H]. do 8 apply Forall_cons in H as [_ H].
  apply Forall_cons in H as [H _]. lia.
Qed.

End equal_rtt.
